(** * moby/tool: image tarball filter, output formats, build cache, schema

    A shallow embedding of the parts of the moby tool that the specification
    makes claims about:

    - [Tarball]: [tarPrefix] and [ImageTar] of package main
                 (src/unnamed/part_000);
    - [Output]:  [ensureLinuxkitImage], [ValidateFormats] and [Formats] of
                 package moby (src/src/moby/output.go);
    - [Schema]:  the JSON schema of a configuration
                 (src/src/moby/output.go, [schema]);
    - [Config]:  [ConfigInspectToOCI] and [ApplyOverride] of package moby,
                 whose tests are src/src/moby/config_test.go.

    Go strings and byte slices are [string]s (sequences of bytes).  Calls
    into the container engine, the tar reader and writer, and the file
    system are effects: each model threads an explicit world through a small
    error monad, and what the outside answers is a parameter of the model. *)

From Stdlib Require Import ZArith Ascii String.
From stdpp Require Import base tactics option list strings gmap.

Open Scope Z_scope.

(** ** Go strings *)

(** [s[i]]: the byte at index [i], [None] when the index is out of range
    (where Go panics). *)
Definition byte_at (s : string) (i : nat) : option ascii := String.get i s.

(** [s[len(s)-1]] for a non-empty [s]. *)
Definition last_byte (s : string) : option ascii :=
  match String.length s with
  | O => None
  | S n => byte_at s n
  end.

(** [s[:len(s)-1]]. *)
Definition drop_last (s : string) : string :=
  String.substring 0 (Nat.pred (String.length s)) s.

(** [strings.HasPrefix(s, p)]. *)
Fixpoint HasPrefix (s p : string) : bool :=
  match p, s with
  | EmptyString, _ => true
  | String _ _, EmptyString => false
  | String b p', String a s' => if Ascii.eqb a b then HasPrefix s' p' else false
  end.

(** [strings.Contains(s, sub)]. *)
Fixpoint Contains (s sub : string) : bool :=
  HasPrefix s sub ||
  match s with
  | EmptyString => false
  | String _ s' => Contains s' sub
  end.

(** [strings.Split(s, sep)] for a separator of one byte: the pieces between
    the separators, empty pieces included. *)
Fixpoint Split (s : string) (sep : ascii) : list string :=
  match s with
  | EmptyString => [EmptyString]
  | String a s' =>
      if Ascii.eqb a sep then EmptyString :: Split s' sep
      else match Split s' sep with
           | [] => [String a EmptyString]
           | p :: ps => String a p :: ps
           end
  end.

(** [int64(len(s))]. *)
Definition len (s : string) : Z := Z.of_nat (String.length s).

(** ** Results *)

(** A Go [(value, error)] pair whose error is either nil or a message. *)
Inductive result (A : Type) : Type :=
  | Success (a : A)
  | Failure (err : string).
Arguments Success {A} a.
Arguments Failure {A} err.

(** How a call ends: it returns a value, returns a non-nil error, or
    panics. *)
Inductive outcome (A : Type) : Type :=
  | Ok (a : A)
  | Err (msg : string)
  | Panic (msg : string).
Arguments Ok {A} a.
Arguments Err {A} msg.
Arguments Panic {A} msg.

Definition is_Ok {A} (r : outcome A) : Prop :=
  match r with Ok _ => True | _ => False end.

(** The state-and-error monad of a world [W]. *)
Module Eff.
Section Eff.
Context {W : Type}.

Definition M (A : Type) : Type := W -> outcome A * W.

Definition ret {A} (a : A) : M A := fun w => (Ok a, w).

Definition throw {A} (msg : string) : M A := fun w => (Err msg, w).

Definition panic {A} (msg : string) : M A := fun w => (Panic msg, w).

Definition bind {A B} (m : M A) (k : A -> M B) : M B :=
  fun w =>
    match m w with
    | (Ok a, w') => k a w'
    | (Err e, w') => (Err e, w')
    | (Panic p, w') => (Panic p, w')
    end.

(** [x, err := m], with the error kept as a value. *)
Definition try {A} (m : M A) : M (result A) :=
  fun w =>
    match m w with
    | (Ok a, w') => (Ok (Success a), w')
    | (Err e, w') => (Ok (Failure e), w')
    | (Panic p, w') => (Panic p, w')
    end.

(** [if err != nil { return fmt.Errorf(pre + "%v", err) }]. *)
Definition wrap {A} (pre : string) (m : M A) : M A :=
  fun w =>
    match m w with
    | (Err e, w') => (Err (pre +:+ e), w')
    | rw => rw
    end.
Lemma bind_unfold {A B} (m : M A) (k : A -> M B) w :
  bind m k w =
  match m w with
  | (Ok a, w') => k a w'
  | (Err e, w') => (Err e, w')
  | (Panic p, w') => (Panic p, w')
  end.
Proof. reflexivity. Qed.

Lemma bind_assoc {A B C} (m : M A) (k1 : A -> M B) (k2 : B -> M C) w :
  bind (bind m k1) k2 w = bind m (fun a => bind (k1 a) k2) w.
Proof. unfold bind. destruct (m w) as [[a|e|p] w']; reflexivity. Qed.

Lemma bind_Ok {A B} (m : M A) (k : A -> M B) w a w' :
  m w = (Ok a, w') -> bind m k w = k a w'.
Proof. intros H. by rewrite bind_unfold, H. Qed.

End Eff.
End Eff.

Notation "x <- m ;; k" := (Eff.bind m (fun x => k))
  (at level 100, m at next level, right associativity).
Notation "m ;;; k" := (Eff.bind m (fun _ => k))
  (at level 100, right associativity).

(** * Package main: the image tarball (src/unnamed/part_000) *)

Module Tarball.

(** The fields of [tar.Header] the program reads or sets. *)
Record Header : Type := mkHeader {
  Name : string;
  Mode : Z;
  Size : Z;
  Typeflag : ascii;
  Linkname : string
}.

(** [tar.TypeDir]. *)
Definition TypeDir : ascii := "5"%char.

(** A call on the [tarWriter]. *)
Inductive wop : Type :=
  | WriteHeader (h : Header)
  | Write (b : string).

(** A call on the container engine. *)
Inductive dcall : Type :=
  | DPull (image : string) (pull trust : bool)
  | DCreate (image : string)
  | DExport (container : string)
  | DRm (container : string).

(** One entry as [tar.Reader] delivers it: the header [Next] returns, the
    non-empty chunks successive [Read]s return, and the error a [Read] ends
    with, if it is not [io.EOF]. *)
Record Entry : Type := mkEntry {
  hdr : Header;
  chunks : list string;
  rerr : option string
}.

(** What [tar.NewReader] makes of a byte stream: the entries [Next] returns
    one by one, then [io.EOF] ([None]) or another error. *)
Record TarStream : Type := mkTarStream {
  entries : list Entry;
  stream_err : option string
}.

(** The world: every call made on the engine and on the writer so far, in
    order, failed calls included. *)
Record World : Type := mkWorld {
  dlog : list dcall;
  wlog : list wop
}.

Definition exclude : gmap string bool :=
  <[".dockerenv" := true]> (<["Dockerfile" := true]> (<["dev/console" := true]>
  (<["dev/pts" := true]> (<["dev/shm" := true]> (<["etc/hostname" := true]> ∅))))).

Definition replace : gmap string string :=
  <["etc/hosts" := "127.0.0.1       localhost
::1     localhost ip6-localhost ip6-loopback
fe00::0 ip6-localnet
ff00::0 ip6-mcastprefix
ff02::1 ip6-allnodes
ff02::2 ip6-allrouters
"]> (<["etc/resolv.conf" := "nameserver 8.8.8.8
nameserver 8.8.4.4
nameserver 2001:4860:4860::8888
nameserver 2001:4860:4860::8844
"]> ∅).

(** [exclude[name]]: a missing key reads as [false]. *)
Definition exclude_at (name : string) : bool := default false (exclude !! name).

(** [replace[name]]: a missing key reads as the empty string. *)
Definition replace_at (name : string) : string := default "" (replace !! name).

(** *** A small archive, an engine and a writer to run the model on *)

(** An engine that has the image, and a writer that never fails. *)
Definition pull_ok (h : list dcall) (image : string) (pull trust : bool)
  : option string := None.
Definition create_ok (h : list dcall) (image : string) : result string :=
  Success "c0".
Definition export_ok (h : list dcall) (container : string) : result string :=
  Success "archive".
Definition rm_ok (h : list dcall) (container : string) : option string := None.
Definition tw_ok (h : list wop) (op : wop) : option string := None.

(** An engine that lacks the image until it is pulled. *)
Definition create_after_pull (h : list dcall) (image : string) : result string :=
  if existsb (fun c => match c with DPull _ _ _ => true | _ => false end) h
  then Success "c0"
  else Failure ("Error: No such image: " +:+ image).

Definition file (name : string) (body : list string) : Entry :=
  {| hdr := {| Name := name; Mode := 420; Size := len (String.concat "" body);
               Typeflag := "0"%char; Linkname := "" |};
     chunks := body; rerr := None |}.

Definition e_hostname : Entry := file "etc/hostname" ["builder"].
Definition e_hosts : Entry := file "etc/hosts" ["10.0.0.1 "; "builder"].
Definition e_sh : Entry := file "bin/sh" ["#!"].

Definition small_archive (contents : string) : TarStream :=
  {| entries := [e_hostname; e_hosts; e_sh]; stream_err := None |}.

Definition w0 : World := {| dlog := []; wlog := [] |}.

Section Model.
(** The outside world.  Each answer may depend on the calls made before. *)
Variable dockerPull_r : list dcall -> string -> bool -> bool -> option string.
Variable dockerCreate_r : list dcall -> string -> result string.
Variable dockerExport_r : list dcall -> string -> result string.
Variable dockerRm_r : list dcall -> string -> option string.
Variable tw_r : list wop -> wop -> option string.
Variable tar_NewReader : string -> TarStream.

Local Abbreviation M := (@Eff.M World).

Definition engine_call {A} (c : dcall) (answer : list dcall -> result A) : M A :=
  fun w =>
    let w' := {| dlog := dlog w ++ [c]; wlog := wlog w |} in
    match answer (dlog w) with
    | Success a => (Ok a, w')
    | Failure e => (Err e, w')
    end.

Definition of_error (o : option string) : result unit :=
  match o with None => Success tt | Some e => Failure e end.

Definition dockerPull (image : string) (pull trust : bool) : M unit :=
  engine_call (DPull image pull trust)
    (fun h => of_error (dockerPull_r h image pull trust)).

Definition dockerCreate (image : string) : M string :=
  engine_call (DCreate image) (fun h => dockerCreate_r h image).

Definition dockerExport (container : string) : M string :=
  engine_call (DExport container) (fun h => dockerExport_r h container).

Definition dockerRm (container : string) : M unit :=
  engine_call (DRm container) (fun h => of_error (dockerRm_r h container)).

Definition tw_call (op : wop) : M unit :=
  fun w =>
    let w' := {| dlog := dlog w; wlog := wlog w ++ [op] |} in
    match tw_r (wlog w) op with
    | None => (Ok tt, w')
    | Some e => (Err e, w')
    end.

Definition tw_WriteHeader (h : Header) : M unit := tw_call (WriteHeader h).
Definition tw_Write (b : string) : M unit := tw_call (Write b).

(** [io.Copy(tw, tr)]: every chunk read is written; a failed write or
    read ends the copy with its error. *)
Fixpoint io_Copy_tw (cs : list string) (e : option string) : M unit :=
  match cs with
  | [] => match e with None => Eff.ret tt | Some msg => Eff.throw msg end
  | c :: cs' => tw_Write c ;;; io_Copy_tw cs' e
  end.

(** [io.Copy(ioutil.Discard, tr)]: the body is read to its end and
    dropped. *)
Definition io_Copy_Discard (cs : list string) (e : option string) : M unit :=
  match e with None => Eff.ret tt | Some msg => Eff.throw msg end.

(** [io.Copy(tw, bytes.NewBufferString(contents))]: one [Write] of the whole
    buffer unless it is empty. *)
Definition io_Copy_buffer (contents : string) : M unit :=
  if decide (contents = "") then Eff.ret tt else tw_Write contents.

(** The loop of [tarPrefix]. *)
Fixpoint tarPrefix_loop (mkdir : string) (dirs : list string) : M unit :=
  match dirs with
  | [] => Eff.ret tt
  | dir :: dirs' =>
      let mkdir := mkdir +:+ dir in
      tw_WriteHeader {| Name := mkdir; Mode := 493; Size := 0;
                        Typeflag := TypeDir; Linkname := "" |} ;;;
      tarPrefix_loop (mkdir +:+ "/") dirs'
  end.

Definition tarPrefix (path : string) : M unit :=
  if decide (path = "") then Eff.ret tt
  else if negb (bool_decide (last_byte path = Some "/"%char))
  then Eff.throw ("path does not end with /: " +:+ path)
  else
    let path := drop_last path in
    match byte_at path 0 with
    | None => Eff.panic "runtime error: index out of range"
    | Some b =>
        if bool_decide (b = "/"%char)
        then Eff.throw ("path should be relative: " +:+ path)
        else tarPrefix_loop "" (Split path "/"%char)
    end.

Definition set_Name (n : string) (h : Header) : Header :=
  {| Name := n; Mode := Mode h; Size := Size h;
     Typeflag := Typeflag h; Linkname := Linkname h |}.

Definition set_Size (z : Z) (h : Header) : Header :=
  {| Name := Name h; Mode := Mode h; Size := z;
     Typeflag := Typeflag h; Linkname := Linkname h |}.

(** The body of the [for] loop of [ImageTar] for one entry. *)
Definition ImageTar_entry (prefix : string) (e : Entry) : M unit :=
  let h := hdr e in
  if exclude_at (Name h) then
    io_Copy_Discard (chunks e) (rerr e)
  else if negb (bool_decide (replace_at (Name h) = "")) then
    let contents := replace_at (Name h) in
    let h := set_Size (len contents) h in
    let h := set_Name (prefix +:+ Name h) h in
    tw_WriteHeader h ;;;
    io_Copy_buffer contents ;;;
    io_Copy_Discard (chunks e) (rerr e)
  else
    let h := set_Name (prefix +:+ Name h) h in
    tw_WriteHeader h ;;;
    io_Copy_tw (chunks e) (rerr e).

(** The [for] loop of [ImageTar]: [tr.Next()] until [io.EOF] or an
    error. *)
Fixpoint ImageTar_loop (prefix : string) (es : list Entry)
    (fin : option string) : M unit :=
  match es with
  | [] => match fin with None => Eff.ret tt | Some msg => Eff.throw msg end
  | e :: es' => ImageTar_entry prefix e ;;; ImageTar_loop prefix es' fin
  end.

(** [ImageTar] (logging left out). *)
Definition ImageTar (image prefix : string) (trust pull : bool) : M unit :=
  (if negb (bool_decide (prefix = ""))
      && negb (bool_decide (last_byte prefix = Some "/"%char))
   then Eff.throw ("prefix does not end with /: " +:+ prefix)
   else Eff.ret tt) ;;;
  tarPrefix prefix ;;;
  (if pull || trust
   then Eff.wrap ("Could not pull image " +:+ image +:+ ": ")
          (dockerPull image pull trust)
   else Eff.ret tt) ;;;
  container <-
    (r <- Eff.try (dockerCreate image) ;;
     match r with
     | Success c => Eff.ret c
     | Failure err =>
         if Contains err "No such image" then
           Eff.wrap ("Could not pull image " +:+ image +:+ ": ")
             (dockerPull image true trust) ;;;
           Eff.wrap ("Failed to docker create image " +:+ image +:+ ": ")
             (dockerCreate image)
         else
           Eff.throw ("Failed to create docker image " +:+ image +:+ ": " +:+ err)
     end) ;;
  contents <-
    Eff.wrap ("Failed to docker export container from container "
              +:+ container +:+ ": ") (dockerExport container) ;;
  Eff.wrap ("Failed to docker rm container " +:+ container +:+ ": ")
    (dockerRm container) ;;;
  let tr := tar_NewReader contents in
  ImageTar_loop prefix (entries tr) (stream_err tr).

(** [ImageBundle] (logging left out). *)
Definition ImageBundle (path image config : string) (trust pull : bool) : M unit :=
  ImageTar image (path +:+ "/rootfs/") trust pull ;;;
  tw_WriteHeader {| Name := path +:+ "/" +:+ "config.json"; Mode := 420;
                    Size := len config; Typeflag := Ascii.zero;
                    Linkname := "" |} ;;;
  io_Copy_buffer config.

(** The header [tarPrefix] writes for a directory. *)
Definition dir_header (name : string) : Header :=
  {| Name := name; Mode := 493; Size := 0; Typeflag := TypeDir; Linkname := "" |}.

(** The names [tarPrefix] gives the directories [dirs] under [mkdir]. *)
Fixpoint dir_names (mkdir : string) (dirs : list string) : list string :=
  match dirs with
  | [] => []
  | dir :: dirs' => (mkdir +:+ dir) :: dir_names ((mkdir +:+ dir) +:+ "/") dirs'
  end.

(** *** The phases of [ImageTar] *)

(** Lines 78-92: the check of the prefix, its directories, the pull asked
    for. *)
Definition ImageTar_prepare (image prefix : string) (trust pull : bool) : M unit :=
  (if negb (bool_decide (prefix = ""))
      && negb (bool_decide (last_byte prefix = Some "/"%char))
   then Eff.throw ("prefix does not end with /: " +:+ prefix)
   else Eff.ret tt) ;;;
  tarPrefix prefix ;;;
  (if pull || trust
   then Eff.wrap ("Could not pull image " +:+ image +:+ ": ")
          (dockerPull image pull trust)
   else Eff.ret tt).

(** Lines 93-108: the creation of the container. *)
Definition ImageTar_create (image : string) (trust : bool) : M string :=
  r <- Eff.try (dockerCreate image) ;;
  match r with
  | Success c => Eff.ret c
  | Failure err =>
      if Contains err "No such image" then
        Eff.wrap ("Could not pull image " +:+ image +:+ ": ")
          (dockerPull image true trust) ;;;
        Eff.wrap ("Failed to docker create image " +:+ image +:+ ": ")
          (dockerCreate image)
      else
        Eff.throw ("Failed to create docker image " +:+ image +:+ ": " +:+ err)
  end.

(** Lines 109-116: the export and the removal of the container. *)
Definition ImageTar_export (container : string) : M string :=
  contents <-
    Eff.wrap ("Failed to docker export container from container "
              +:+ container +:+ ": ") (dockerExport container) ;;
  Eff.wrap ("Failed to docker rm container " +:+ container +:+ ": ")
    (dockerRm container) ;;;
  Eff.ret contents.

(** Lines 77-116: everything before the archive is read. *)
Definition ImageTar_fetch (image prefix : string) (trust pull : bool) : M string :=
  ImageTar_prepare image prefix trust pull ;;;
  container <- ImageTar_create image trust ;;
  ImageTar_export container.

(** What the loop writes for one entry when no call fails. *)
Definition entry_ops (prefix : string) (e : Entry) : list wop :=
  let h := hdr e in
  if exclude_at (Name h) then []
  else if negb (bool_decide (replace_at (Name h) = "")) then
    [WriteHeader (set_Name (prefix +:+ Name h)
                    (set_Size (len (replace_at (Name h))) h));
     Write (replace_at (Name h))]
  else
    WriteHeader (set_Name (prefix +:+ Name h) h) :: map Write (chunks e).

(** [m] leaves the engine alone and appends to the writer's log a prefix of
    [spec], all of it when it succeeds. *)
Definition emits {A} (m : M A) (spec : list wop) : Prop :=
  forall w,
    dlog (m w).2 = dlog w /\
    exists ops, wlog (m w).2 = wlog w ++ ops /\ ops `prefix_of` spec /\
                (is_Ok (m w).1 -> ops = spec).

(** No call of the engine in [l] is a creation or a pull. *)
Definition no_create_or_pull (l : list dcall) : Prop :=
  Forall (fun c => match c with DExport _ | DRm _ => True | _ => False end) l.

(** *** Facts about Go strings *)

Lemma append_cons x (a b : string) : String x a +:+ b = String x (a +:+ b).
Proof. reflexivity. Qed.

Lemma append_cancel_l (p a b : string) : p +:+ a = p +:+ b -> a = b.
Proof.
  induction p as [|c p IH]; [done|]. rewrite !append_cons. intros [=]; auto.
Qed.

Lemma append_assoc (a b c : string) : (a +:+ b) +:+ c = a +:+ (b +:+ c).
Proof.
  induction a as [|x a IH]; [done|]. by rewrite !append_cons, IH.
Qed.

Lemma length_append_byte (s : string) c :
  String.length (s +:+ String c "") = S (String.length s).
Proof.
  induction s as [|a s IH]; [done|]. rewrite append_cons. simpl. by rewrite IH.
Qed.

Lemma get_append_byte (s : string) c :
  String.get (String.length s) (s +:+ String c "") = Some c.
Proof. induction s as [|a s IH]; [done|]. by rewrite append_cons. Qed.

Lemma last_byte_append (s : string) c : last_byte (s +:+ String c "") = Some c.
Proof.
  unfold last_byte, byte_at. rewrite length_append_byte. apply get_append_byte.
Qed.

Lemma substring_append (s t : string) :
  String.substring 0 (String.length s) (s +:+ t) = s.
Proof.
  induction s as [|a s IH]; [by destruct t|].
  rewrite append_cons. simpl. by rewrite IH.
Qed.

Lemma drop_last_append (s : string) c : drop_last (s +:+ String c "") = s.
Proof.
  unfold drop_last. rewrite length_append_byte. simpl. apply substring_append.
Qed.

(** *** The writer's log *)

Lemma emits_ret {A} (a : A) : emits (Eff.ret a) [].
Proof.
  intros w; simpl; split; [reflexivity|].
  exists []. rewrite app_nil_r. repeat split; auto.
Qed.

Lemma emits_throw {A} msg spec : emits (@Eff.throw _ A msg) spec.
Proof.
  intros w; simpl; split; [reflexivity|].
  exists []. rewrite app_nil_r. repeat split; [apply prefix_nil | intros []].
Qed.

Lemma emits_bind {A B} (m : M A) (k : A -> M B) s1 s2 :
  emits m s1 -> (forall a, emits (k a) s2) -> emits (Eff.bind m k) (s1 ++ s2).
Proof.
  intros Hm Hk w. unfold Eff.bind.
  destruct (Hm w) as (Hd & ops1 & Hw & Hp & Hok).
  destruct (m w) as [[a|e|p] w']; simpl in *.
  - destruct (Hk a w') as (Hd2 & ops2 & Hw2 & Hp2 & Hok2).
    rewrite (Hok I) in Hw. split; [congruence|].
    exists (s1 ++ ops2). rewrite Hw2, Hw, app_assoc. split; [reflexivity|].
    split; [by apply prefix_app | intros H; by rewrite (Hok2 H)].
  - split; [done|]. exists ops1. repeat split; [done | by apply prefix_app_r | intros []].
  - split; [done|]. exists ops1. repeat split; [done | by apply prefix_app_r | intros []].
Qed.

Lemma emits_tw_call op : emits (tw_call op) [op].
Proof.
  intros w. unfold tw_call.
  destruct (tw_r (wlog w) op); simpl; (split; [reflexivity|]);
    exists [op]; repeat split; auto.
Qed.

Lemma emits_io_Copy_tw cs e : emits (io_Copy_tw cs e) (map Write cs).
Proof.
  induction cs as [|c cs IH]; simpl.
  - destruct e; [apply emits_throw | apply emits_ret].
  - apply (emits_bind _ _ [Write c]); [apply emits_tw_call | intros _; exact IH].
Qed.

Lemma emits_io_Copy_Discard cs e : emits (io_Copy_Discard cs e) [].
Proof. destruct e; [apply emits_throw | apply emits_ret]. Qed.

Lemma emits_io_Copy_buffer contents :
  contents <> "" -> emits (io_Copy_buffer contents) [Write contents].
Proof.
  intros H. unfold io_Copy_buffer. destruct (decide (contents = "")); [done|].
  apply emits_tw_call.
Qed.

Lemma emits_ImageTar_entry prefix e :
  emits (ImageTar_entry prefix e) (entry_ops prefix e).
Proof.
  unfold ImageTar_entry, entry_ops.
  destruct (exclude_at (Name (hdr e))); [apply emits_io_Copy_Discard|].
  destruct (bool_decide (replace_at (Name (hdr e)) = "")) eqn:E; simpl.
  - apply (emits_bind _ _ [_]); [apply emits_tw_call | intros _; apply emits_io_Copy_tw].
  - apply bool_decide_eq_false in E.
    apply (emits_bind _ _ [_] [_]); [apply emits_tw_call | intros _].
    apply (emits_bind _ _ [_] []); [by apply emits_io_Copy_buffer | intros _].
    apply emits_io_Copy_Discard.
Qed.

Lemma emits_ImageTar_loop prefix es fin :
  emits (ImageTar_loop prefix es fin) (flat_map (entry_ops prefix) es).
Proof.
  induction es as [|e es IH]; simpl.
  - destruct fin; [apply emits_throw | apply emits_ret].
  - apply emits_bind; [apply emits_ImageTar_entry | intros _; exact IH].
Qed.

(** [ImageTar] is its fetch phase followed by the loop. *)
Lemma ImageTar_phases image prefix trust pull w :
  ImageTar image prefix trust pull w =
  (contents <- ImageTar_fetch image prefix trust pull ;;
   ImageTar_loop prefix (entries (tar_NewReader contents))
     (stream_err (tar_NewReader contents))) w.
Proof.
  unfold ImageTar, ImageTar_fetch, ImageTar_prepare, ImageTar_create, ImageTar_export.
  unfold Eff.bind, Eff.ret.
  repeat (case_match; simplify_eq; try reflexivity).
Qed.

Lemma ImageTar_after_fetch image prefix trust pull w :
  ImageTar image prefix trust pull w =
  match ImageTar_fetch image prefix trust pull w with
  | (Ok contents, wm) =>
      ImageTar_loop prefix (entries (tar_NewReader contents))
        (stream_err (tar_NewReader contents)) wm
  | (Err msg, wm) => (Err msg, wm)
  | (Panic msg, wm) => (Panic msg, wm)
  end.
Proof. by rewrite ImageTar_phases. Qed.

Lemma entry_ops_excluded prefix e :
  exclude_at (Name (hdr e)) = true -> entry_ops prefix e = [].
Proof. intros H. unfold entry_ops. by rewrite H. Qed.

Lemma flat_map_entry_ops_filter prefix es :
  flat_map (entry_ops prefix) es =
  flat_map (entry_ops prefix)
    (filter (fun e => exclude_at (Name (hdr e)) = false) es).
Proof.
  induction es as [|e es IH]; [reflexivity|].
  rewrite filter_cons. simpl. destruct (decide _) as [E|E].
  - simpl. by rewrite IH.
  - apply not_false_is_true in E. by rewrite entry_ops_excluded, IH.
Qed.

Lemma entry_ops_header prefix e h :
  WriteHeader h ∈ entry_ops prefix e ->
  exclude_at (Name (hdr e)) = false /\ Name h = prefix +:+ Name (hdr e).
Proof.
  unfold entry_ops. destruct (exclude_at (Name (hdr e))); [by intros ?%elem_of_nil|].
  destruct (negb _); intros H.
  - apply elem_of_cons in H as [H|H]; [by inversion H|].
    apply elem_of_cons in H as [H|H]; [inversion H | by apply elem_of_nil in H].
  - apply elem_of_cons in H as [H|H]; [by inversion H|].
    apply list_elem_of_fmap in H as (b & Hb & _). inversion Hb.
Qed.

Lemma replace_at_cases n :
  replace_at n <> "" -> n = "etc/hosts" \/ n = "etc/resolv.conf".
Proof.
  unfold replace_at, replace. intros H.
  destruct (decide (n = "etc/hosts")) as [|N1]; [by left|].
  destruct (decide (n = "etc/resolv.conf")) as [|N2]; [by right|].
  rewrite !lookup_insert_ne, lookup_empty in H by done. done.
Qed.

Lemma replaced_not_excluded n : replace_at n <> "" -> exclude_at n = false.
Proof. intros [->| ->]%replace_at_cases; reflexivity. Qed.

Lemma entry_ops_replaced prefix e :
  replace_at (Name (hdr e)) <> "" ->
  entry_ops prefix e =
  [WriteHeader (set_Name (prefix +:+ Name (hdr e))
                  (set_Size (len (replace_at (Name (hdr e)))) (hdr e)));
   Write (replace_at (Name (hdr e)))].
Proof.
  intros H. unfold entry_ops. rewrite (replaced_not_excluded _ H).
  by rewrite bool_decide_eq_false_2.
Qed.

(** *** The engine's log *)

Lemma engine_call_dlog {A} c (answer : list dcall -> result A) w :
  dlog (engine_call c answer w).2 = dlog w ++ [c].
Proof. unfold engine_call. by destruct (answer (dlog w)). Qed.

Lemma ImageTar_export_dlog c w :
  exists rest, dlog (ImageTar_export c w).2 = dlog w ++ rest /\ no_create_or_pull rest.
Proof.
  unfold ImageTar_export, Eff.bind, Eff.wrap, dockerExport, dockerRm, engine_call.
  destruct (dockerExport_r (dlog w) c); simpl.
  - destruct (of_error _); simpl;
      (exists [DExport c; DRm c]; split;
       [by rewrite <- app_assoc | by repeat constructor]).
  - exists [DExport c]; split; [done | by repeat constructor].
Qed.

Lemma after_create_dlog prefix c w :
  exists rest,
    dlog ((contents <- ImageTar_export c ;;
           ImageTar_loop prefix (entries (tar_NewReader contents))
             (stream_err (tar_NewReader contents))) w).2 = dlog w ++ rest /\
    no_create_or_pull rest.
Proof.
  destruct (ImageTar_export_dlog c w) as (rest & Hd & Hn).
  exists rest. split; [|done]. unfold Eff.bind at 1.
  destruct (ImageTar_export c w) as [[x|?|?] w']; simpl in *; try done.
  by destruct (emits_ImageTar_loop prefix (entries (tar_NewReader x))
                 (stream_err (tar_NewReader x)) w') as [-> _].
Qed.

(** *** The claims *)

(** C5.  An entry of the source archive whose name is in [exclude] is never
    written: the loop reads its body to the end (a read error is returned)
    and makes no call on the writer; and in every run of [ImageTar], failed
    or not, what the loop writes is a prefix of what the entries outside
    [exclude] call for, so that no header written by the loop carries the
    name, under the prefix, of an excluded path. *)
Theorem ImageTar_excluded_never_written image prefix trust pull w :
  (forall e w0, exclude_at (Name (hdr e)) = true ->
     ImageTar_entry prefix e w0 =
     (match rerr e with None => Ok tt | Some msg => Err msg end, w0)) /\
  match ImageTar_fetch image prefix trust pull w with
  | (Ok contents, wm) =>
      exists ops,
        wlog (ImageTar image prefix trust pull w).2 = wlog wm ++ ops /\
        ops `prefix_of`
          flat_map (entry_ops prefix)
            (filter (fun e => exclude_at (Name (hdr e)) = false)
               (entries (tar_NewReader contents))) /\
        forall h n, WriteHeader h ∈ ops -> exclude_at n = true ->
                    Name h <> prefix +:+ n
  | (Err msg, wm) => ImageTar image prefix trust pull w = (Err msg, wm)
  | (Panic msg, wm) => ImageTar image prefix trust pull w = (Panic msg, wm)
  end.
Proof.
  split.
  - intros e w0 H. unfold ImageTar_entry. rewrite H.
    unfold io_Copy_Discard. by destruct (rerr e).
  - rewrite ImageTar_after_fetch.
    destruct (ImageTar_fetch image prefix trust pull w) as [[contents|msg|msg] wm];
      [|reflexivity..].
    destruct (emits_ImageTar_loop prefix (entries (tar_NewReader contents))
                (stream_err (tar_NewReader contents)) wm)
      as (_ & ops & Hw & Hp & _).
    exists ops. rewrite <- flat_map_entry_ops_filter. split; [done|]. split; [done|].
    intros h n Hh Hn Heq.
    destruct Hp as [k Hk].
    assert (Hin : WriteHeader h ∈ flat_map (entry_ops prefix)
                    (entries (tar_NewReader contents))).
    { rewrite Hk. apply elem_of_app. by left. }
    apply list_elem_of_In, in_flat_map in Hin as (e & _ & He).
    apply list_elem_of_In, entry_ops_header in He as [Hx Hname].
    rewrite Hname in Heq. apply append_cancel_l in Heq. congruence.
Qed.

Lemma ImageTar_loop_app prefix es1 es2 fin w :
  ImageTar_loop prefix (es1 ++ es2) fin w
  = (ImageTar_loop prefix es1 None ;;; ImageTar_loop prefix es2 fin) w.
Proof.
  revert w. induction es1 as [|e es1 IH]; intros w; [done|].
  cbn [app ImageTar_loop]. rewrite Eff.bind_assoc, !Eff.bind_unfold.
  destruct (ImageTar_entry prefix e w) as [[[]|?|?] w']; [|done..].
  by rewrite IH.
Qed.

(** What the loop does with an entry that [replace] names, call by call. *)
Lemma ImageTar_entry_replaced prefix e w :
  replace_at (Name (hdr e)) <> "" ->
  let h := WriteHeader (set_Name (prefix +:+ Name (hdr e))
                          (set_Size (len (replace_at (Name (hdr e)))) (hdr e))) in
  let c := Write (replace_at (Name (hdr e))) in
  ImageTar_entry prefix e w =
  match tw_r (wlog w) h with
  | Some err => (Err err, mkWorld (dlog w) (wlog w ++ [h]))
  | None =>
      match tw_r (wlog w ++ [h]) c with
      | Some err => (Err err, mkWorld (dlog w) (wlog w ++ [h; c]))
      | None =>
          (match rerr e with None => Ok tt | Some msg => Err msg end,
           mkWorld (dlog w) (wlog w ++ [h; c]))
      end
  end.
Proof.
  intros Hr h c. subst h c. unfold ImageTar_entry.
  rewrite (replaced_not_excluded _ Hr), bool_decide_eq_false_2 by done.
  cbn [negb]. cbn zeta.
  unfold io_Copy_buffer, io_Copy_Discard, tw_WriteHeader, tw_Write, tw_call.
  destruct (decide (replace_at (Name (hdr e)) = "")); [done|].
  unfold Eff.bind at 1. destruct (tw_r (wlog w) _); [done|].
  unfold Eff.bind. cbn [wlog dlog].
  destruct (tw_r (wlog w ++ _) _); cbn [wlog dlog]; rewrite <- ?app_assoc;
    [done|].
  by destruct (rerr e).
Qed.

(** C6.  Where the source archive holds an entry [e] whose name is in
    [replace], [ImageTar], once the entries before [e] are done, calls the
    writer with the header of [e] that has the prefixed name and the length
    of the replacement as its size, and then, unless that call fails, with
    one write of the replacement; the body of [e] is read to its end and
    dropped.  A failure of the writer or of the reader ends the run there
    with its error; otherwise the run goes on with the entries after [e].
    So a run that succeeds has written, at the place of [e], exactly that
    header and the replacement, and a run that fails a prefix of the same
    log: neither the chunks of [e] nor its size occur in what is written for
    [e]. *)
Theorem ImageTar_replaced_content image prefix trust pull w contents wm es1 e es2 :
  ImageTar_fetch image prefix trust pull w = (Ok contents, wm) ->
  entries (tar_NewReader contents) = es1 ++ e :: es2 ->
  replace_at (Name (hdr e)) <> "" ->
  let run := ImageTar image prefix trust pull w in
  let h := WriteHeader (set_Name (prefix +:+ Name (hdr e))
                          (set_Size (len (replace_at (Name (hdr e)))) (hdr e))) in
  let c := Write (replace_at (Name (hdr e))) in
  let full :=
    flat_map (entry_ops prefix) es1 ++ [h; c] ++ flat_map (entry_ops prefix) es2 in
  (exists ops,
     wlog run.2 = wlog wm ++ ops /\ ops `prefix_of` full /\
     (is_Ok run.1 -> ops = full)) /\
  (forall w1,
     ImageTar_loop prefix es1 None wm = (Ok tt, w1) ->
     wlog w1 = wlog wm ++ flat_map (entry_ops prefix) es1 /\
     match tw_r (wlog w1) h with
     | Some err => run = (Err err, mkWorld (dlog w1) (wlog w1 ++ [h]))
     | None =>
         match tw_r (wlog w1 ++ [h]) c with
         | Some err => run = (Err err, mkWorld (dlog w1) (wlog w1 ++ [h; c]))
         | None =>
             match rerr e with
             | Some msg => run = (Err msg, mkWorld (dlog w1) (wlog w1 ++ [h; c]))
             | None =>
                 run = ImageTar_loop prefix es2
                         (stream_err (tar_NewReader contents))
                         (mkWorld (dlog w1) (wlog w1 ++ [h; c]))
             end
         end
     end) /\
  (forall msg w1,
     ImageTar_loop prefix es1 None wm = (Err msg, w1) -> run = (Err msg, w1)).
Proof.
  intros Hf Hes Hr run h c full. subst run.
  rewrite ImageTar_after_fetch, Hf, Hes. split; [|split].
  - rewrite <- Hes.
    destruct (emits_ImageTar_loop prefix (entries (tar_NewReader contents))
                (stream_err (tar_NewReader contents)) wm)
      as (_ & ops & Hw & Hp & Hok).
    assert (Hfull : flat_map (entry_ops prefix) (entries (tar_NewReader contents))
                    = full).
    { rewrite Hes, flat_map_app. simpl. by rewrite (entry_ops_replaced _ _ Hr). }
    rewrite Hfull in Hp, Hok. by exists ops.
  - intros w1 H1. split.
    { destruct (emits_ImageTar_loop prefix es1 None wm) as (_ & ops & Hw & _ & Hok).
      rewrite H1 in Hw, Hok. simpl in Hw, Hok. by rewrite Hw, (Hok I). }
    rewrite ImageTar_loop_app, Eff.bind_unfold, H1.
    cbn [ImageTar_loop]. rewrite Eff.bind_unfold.
    rewrite (ImageTar_entry_replaced prefix e w1 Hr). fold h c.
    destruct (tw_r (wlog w1) h); [done|].
    destruct (tw_r (wlog w1 ++ [h]) c); [done|].
    by destruct (rerr e).
  - intros msg w1 H1. by rewrite ImageTar_loop_app, Eff.bind_unfold, H1.
Qed.

Lemma ImageTar_after_prepare image prefix trust pull w wp :
  ImageTar_prepare image prefix trust pull w = (Ok tt, wp) ->
  ImageTar image prefix trust pull w =
  (container <- ImageTar_create image trust ;;
   contents <- ImageTar_export container ;;
   ImageTar_loop prefix (entries (tar_NewReader contents))
     (stream_err (tar_NewReader contents))) wp.
Proof.
  intros Hp. rewrite ImageTar_phases. unfold ImageTar_fetch.
  rewrite Eff.bind_assoc, (Eff.bind_Ok _ _ _ _ _ Hp). apply Eff.bind_assoc.
Qed.

Lemma ImageTar_create_eq image trust wp :
  let h1 := dlog wp ++ [DCreate image] in
  let h2 := h1 ++ [DPull image true trust] in
  ImageTar_create image trust wp =
  match dockerCreate_r (dlog wp) image with
  | Success c => (Ok c, mkWorld h1 (wlog wp))
  | Failure err =>
      if Contains err "No such image" then
        match dockerPull_r h1 image true trust with
        | Some perr =>
            (Err ("Could not pull image " +:+ image +:+ ": " +:+ perr),
             mkWorld h2 (wlog wp))
        | None =>
            match dockerCreate_r h2 image with
            | Success c => (Ok c, mkWorld (h2 ++ [DCreate image]) (wlog wp))
            | Failure err2 =>
                (Err ("Failed to docker create image " +:+ image +:+ ": "
                      +:+ err2),
                 mkWorld (h2 ++ [DCreate image]) (wlog wp))
            end
        end
      else
        (Err ("Failed to create docker image " +:+ image +:+ ": " +:+ err),
         mkWorld h1 (wlog wp))
  end.
Proof.
  intros h1 h2. subst h1 h2.
  unfold ImageTar_create, Eff.bind, Eff.try, Eff.wrap, dockerCreate, dockerPull,
    engine_call, Eff.ret, Eff.throw.
  destruct (dockerCreate_r (dlog wp) image) as [c|err]; [reflexivity|].
  destruct (Contains err "No such image"); [|reflexivity].
  destruct (dockerPull_r _ image true trust) as [perr|]; cbn [of_error];
    [by rewrite !append_assoc|].
  destruct (dockerCreate_r _ image); [reflexivity | by rewrite !append_assoc].
Qed.

(** C7.  Once the preparation is over, the engine is asked to create the
    container.  When that fails with an error that contains "No such image",
    one pull (with [pull] forced) and one more creation follow, and a failure
    of either ends the run with its error and no further call; the calls
    after the creation that succeeded are exports and removals only.  When it
    fails with another error, the run ends there: no pull, no second
    creation. *)
Theorem ImageTar_pull_retry_once image prefix trust pull w wp :
  ImageTar_prepare image prefix trust pull w = (Ok tt, wp) ->
  let run := ImageTar image prefix trust pull w in
  let h1 := dlog wp ++ [DCreate image] in
  let h2 := h1 ++ [DPull image true trust] in
  match dockerCreate_r (dlog wp) image with
  | Success _ =>
      exists rest, dlog run.2 = h1 ++ rest /\ no_create_or_pull rest
  | Failure err =>
      if Contains err "No such image" then
        match dockerPull_r h1 image true trust with
        | Some perr =>
            run = (Err ("Could not pull image " +:+ image +:+ ": " +:+ perr),
                   mkWorld h2 (wlog wp))
        | None =>
            match dockerCreate_r h2 image with
            | Failure err2 =>
                run = (Err ("Failed to docker create image " +:+ image +:+ ": "
                            +:+ err2),
                       mkWorld (h2 ++ [DCreate image]) (wlog wp))
            | Success _ =>
                exists rest,
                  dlog run.2 = h2 ++ DCreate image :: rest /\
                  no_create_or_pull rest
            end
        end
      else
        run = (Err ("Failed to create docker image " +:+ image +:+ ": " +:+ err),
               mkWorld h1 (wlog wp))
  end.
Proof.
  intros Hp run h1 h2. subst run.
  rewrite (ImageTar_after_prepare _ _ _ _ _ _ Hp), Eff.bind_unfold, ImageTar_create_eq.
  fold h1. fold h2.
  destruct (dockerCreate_r (dlog wp) image) as [c|err].
  - destruct (after_create_dlog prefix c (mkWorld h1 (wlog wp))) as (rest & Hd & Hn).
    by exists rest.
  - destruct (Contains err "No such image"); [|reflexivity].
    destruct (dockerPull_r h1 image true trust) as [perr|]; [reflexivity|].
    destruct (dockerCreate_r h2 image) as [c|err2]; [|reflexivity].
    destruct (after_create_dlog prefix c (mkWorld (h2 ++ [DCreate image]) (wlog wp)))
      as (rest & Hd & Hn).
    exists rest. split; [|done]. rewrite Hd. simpl. by rewrite <- app_assoc.
Qed.

(** C10.  [tarPrefix "/"] panics on the index [path[0]] of the empty string
    left when the trailing slash is cut; [ImageTar] lets the prefix ["/"]
    through to it and panics before any call on the engine or the writer.
    Every longer path that starts and ends with a slash gets the error
    "path should be relative" instead. *)
Theorem tarPrefix_root_panics image trust pull w :
  tarPrefix "/" w = (Panic "runtime error: index out of range", w) /\
  ImageTar image "/" trust pull w
    = (Panic "runtime error: index out of range", w) /\
  forall c p,
    tarPrefix ("/" +:+ String c p +:+ "/") w
    = (Err ("path should be relative: /" +:+ String c p), w).
Proof.
  split; [reflexivity|]. split; [reflexivity|].
  intros c p. unfold tarPrefix.
  change ("/" +:+ String c p +:+ "/") with (String "/" (String c p) +:+ "/").
  rewrite last_byte_append, drop_last_append.
  destruct (decide _) as [E|_]; [discriminate E|].
  rewrite bool_decide_eq_true_2 by done. simpl.
  reflexivity.
Qed.

(** *** More of [tarPrefix], [ImageTar] and [ImageBundle] *)

Lemma concat_cons2 sep (x y : string) l :
  String.concat sep (x :: y :: l) = x +:+ sep +:+ String.concat sep (y :: l).
Proof. reflexivity. Qed.

Lemma Split_nonempty s sep : Split s sep <> [].
Proof.
  destruct s as [|a s]; simpl; [done|].
  destruct (Ascii.eqb a sep); [done|]. by destruct (Split s sep).
Qed.

(** Joining the pieces of a split gives the string back. *)
Lemma concat_Split s c : String.concat (String c "") (Split s c) = s.
Proof.
  induction s as [|a s IH]; simpl; [done|].
  pose proof (Split_nonempty s c) as Hne.
  destruct (Split s c) as [|p ps]; [done|].
  destruct (Ascii.eqb a c) eqn:E.
  - apply Ascii.eqb_eq in E as ->. by rewrite concat_cons2, IH.
  - destruct ps as [|q ps]; simpl in *; [by rewrite IH|].
    by rewrite append_cons, IH.
Qed.

Lemma emits_tarPrefix_loop mkdir dirs :
  emits (tarPrefix_loop mkdir dirs)
    (map WriteHeader (map dir_header (dir_names mkdir dirs))).
Proof.
  revert mkdir. induction dirs as [|dir dirs IH]; intros mkdir; simpl.
  - apply emits_ret.
  - apply (emits_bind _ _ [_]); [apply emits_tw_call | intros _; apply IH].
Qed.

Lemma length_dir_names mkdir dirs : length (dir_names mkdir dirs) = length dirs.
Proof.
  revert mkdir. induction dirs as [|d ds IH]; intros mkdir; simpl; [done|].
  by rewrite IH.
Qed.

Lemma dir_names_spec mkdir dirs :
  dirs <> [] ->
  Forall (fun n => exists rest,
            mkdir +:+ String.concat "/" dirs +:+ "/" = n +:+ "/" +:+ rest)
    (dir_names mkdir dirs) /\
  last (dir_names mkdir dirs) = Some (mkdir +:+ String.concat "/" dirs).
Proof.
  revert mkdir. induction dirs as [|d ds IH]; intros mkdir Hne; [done|].
  destruct ds as [|d' ds].
  - simpl. split; [|done]. constructor; [|constructor].
    exists "". by rewrite append_assoc.
  - destruct (IH ((mkdir +:+ d) +:+ "/") ltac:(done)) as [HF HL].
    rewrite concat_cons2. cbn [dir_names] in *. split.
    + constructor.
      * exists (String.concat "/" (d' :: ds) +:+ "/"). by rewrite !append_assoc.
      * eapply Forall_impl; [exact HF|]. intros n [rest Hr]. exists rest.
        rewrite <- Hr. by rewrite !append_assoc.
    + rewrite last_cons, HL. by rewrite !append_assoc.
Qed.

Lemma map_WriteHeader_inj hs hs' :
  map WriteHeader hs = map WriteHeader hs' -> hs = hs'.
Proof.
  revert hs'. induction hs as [|h hs IH]; intros [|h' hs']; simpl; try done.
  intros [= -> H]. by rewrite (IH _ H).
Qed.

(** X1.  For a relative path, [tarPrefix] calls the writer with directory
    headers only (mode 0755, size 0), each named by a prefix of the path
    that ends before a slash; when it succeeds there is one header for each
    component of the path, the last of them named by the whole path without
    its final slash. *)
Theorem tarPrefix_directories s b w :
  byte_at s 0 = Some b -> b <> "/"%char ->
  let run := tarPrefix (s +:+ "/") w in
  dlog run.2 = dlog w /\
  exists hs,
    wlog run.2 = wlog w ++ map WriteHeader hs /\
    Forall (fun h => Mode h = 493 /\ Size h = 0 /\ Typeflag h = TypeDir /\
                     Linkname h = "" /\
                     exists rest, s +:+ "/" = Name h +:+ "/" +:+ rest) hs /\
    (is_Ok run.1 ->
     length hs = length (Split s "/"%char) /\ last (map Name hs) = Some s).
Proof.
  intros Hb Hne run. subst run. unfold tarPrefix.
  destruct (decide (s +:+ "/" = "")) as [E|_]; [by destruct s|].
  rewrite last_byte_append, drop_last_append, Hb.
  rewrite bool_decide_eq_true_2 by done. simpl negb. cbn iota.
  rewrite bool_decide_eq_false_2 by done.
  destruct (emits_tarPrefix_loop "" (Split s "/"%char) w)
    as (Hd & ops & Hw & [k Hk] & Hok).
  split; [done|].
  destruct (dir_names_spec "" (Split s "/"%char) (Split_nonempty _ _)) as [HF HL].
  rewrite (concat_Split s "/"%char) in HF, HL.
  set (all := map dir_header (dir_names "" (Split s "/"%char))) in *.
  assert (Hops : exists hs, ops = map WriteHeader hs /\ hs `prefix_of` all).
  { exists (take (length ops) all). split; [|apply prefix_take].
    by rewrite <- List.firstn_map, Hk, take_app_length. }
  destruct Hops as (hs & -> & [k' Hk']).
  exists hs. split; [done|]. split.
  - assert (HA : Forall (fun h => Mode h = 493 /\ Size h = 0 /\ Typeflag h = TypeDir /\
                     Linkname h = "" /\
                     exists rest, s +:+ "/" = Name h +:+ "/" +:+ rest) all).
    { apply List.Forall_map. eapply Forall_impl; [exact HF|]. intros n Hn. simpl.
      by repeat split. }
    rewrite Hk' in HA. by apply Forall_app in HA as [HA _].
  - intros H. apply Hok, map_WriteHeader_inj in H. subst hs all.
    rewrite List.length_map, length_dir_names. split; [done|].
    rewrite List.map_map. simpl. by rewrite List.map_id.
Qed.

Lemma tarPrefix_absolute c p w :
  tarPrefix ("/" +:+ String c p +:+ "/") w
  = (Err ("path should be relative: /" +:+ String c p), w).
Proof.
  unfold tarPrefix.
  change ("/" +:+ String c p +:+ "/") with (String "/" (String c p) +:+ "/").
  rewrite last_byte_append, drop_last_append.
  destruct (decide _) as [E|_]; [discriminate E|].
  by rewrite bool_decide_eq_true_2.
Qed.

Lemma ImageTar_rejects_bad_prefix_aux image trust pull w c p :
  ImageTar image ("/" +:+ String c p +:+ "/") trust pull w
  = (Err ("path should be relative: /" +:+ String c p), w).
Proof.
  unfold ImageTar. rewrite Eff.bind_unfold.
  change ("/" +:+ String c p +:+ "/") with (String "/" (String c p) +:+ "/").
  rewrite last_byte_append. rewrite (bool_decide_eq_true_2 (Some _ = Some _)) by done.
  rewrite andb_false_r. cbn [Eff.ret]. cbn iota beta.
  rewrite Eff.bind_unfold.
  change (String "/" (String c p) +:+ "/") with ("/" +:+ String c p +:+ "/").
  by rewrite tarPrefix_absolute.
Qed.


Lemma entry_ops_copied prefix e :
  exclude_at (Name (hdr e)) = false -> replace_at (Name (hdr e)) = "" ->
  entry_ops prefix e
  = WriteHeader (set_Name (prefix +:+ Name (hdr e)) (hdr e)) :: map Write (chunks e).
Proof.
  intros H1 H2. unfold entry_ops. rewrite H1, H2. done.
Qed.

(** X3.  An entry of the source archive that is neither excluded nor
    replaced is copied through: a run of [ImageTar] that succeeds has
    written, at the place of the entry, its header with nothing changed but
    the name, which has the prefix put before it, and then the chunks of its
    body in the order they were read; a run that fails has written a prefix
    of the same log. *)
Theorem ImageTar_copies_other_entries image prefix trust pull w contents wm
    es1 e es2 :
  ImageTar_fetch image prefix trust pull w = (Ok contents, wm) ->
  entries (tar_NewReader contents) = es1 ++ e :: es2 ->
  exclude_at (Name (hdr e)) = false ->
  replace_at (Name (hdr e)) = "" ->
  let full :=
    flat_map (entry_ops prefix) es1 ++
    (WriteHeader {| Name := prefix +:+ Name (hdr e); Mode := Mode (hdr e);
                    Size := Size (hdr e); Typeflag := Typeflag (hdr e);
                    Linkname := Linkname (hdr e) |}
     :: map Write (chunks e)) ++
    flat_map (entry_ops prefix) es2 in
  exists ops,
    wlog (ImageTar image prefix trust pull w).2 = wlog wm ++ ops /\
    ops `prefix_of` full /\
    (is_Ok (ImageTar image prefix trust pull w).1 -> ops = full).
Proof.
  intros Hf Hes Hx Hr full.
  rewrite ImageTar_after_fetch, Hf.
  destruct (emits_ImageTar_loop prefix (entries (tar_NewReader contents))
              (stream_err (tar_NewReader contents)) wm)
    as (_ & ops & Hw & Hp & Hok).
  assert (Hfull : flat_map (entry_ops prefix) (entries (tar_NewReader contents))
                  = full).
  { rewrite Hes, flat_map_app. simpl. by rewrite (entry_ops_copied _ _ Hx Hr). }
  rewrite Hfull in Hp, Hok. by exists ops.
Qed.

(** X4.  The container that was created is removed once its export has
    succeeded, and before anything of the archive is written: a failed
    export ends the run with the container left in place (no removal is
    asked for), a failed removal ends it with nothing written, and otherwise
    the run goes on as the loop over the exported archive. *)
Theorem ImageTar_container_removal image prefix trust pull w c wc :
  (ImageTar_prepare image prefix trust pull ;;; ImageTar_create image trust) w
  = (Ok c, wc) ->
  let run := ImageTar image prefix trust pull w in
  match dockerExport_r (dlog wc) c with
  | Failure e =>
      run = (Err ("Failed to docker export container from container "
                  +:+ c +:+ ": " +:+ e),
             mkWorld (dlog wc ++ [DExport c]) (wlog wc))
  | Success contents =>
      match dockerRm_r (dlog wc ++ [DExport c]) c with
      | Some e =>
          run = (Err ("Failed to docker rm container " +:+ c +:+ ": " +:+ e),
                 mkWorld (dlog wc ++ [DExport c; DRm c]) (wlog wc))
      | None =>
          run = ImageTar_loop prefix (entries (tar_NewReader contents))
                  (stream_err (tar_NewReader contents))
                  (mkWorld (dlog wc ++ [DExport c; DRm c]) (wlog wc)) /\
          dlog run.2 = dlog wc ++ [DExport c; DRm c]
      end
  end.
Proof.
  intros H run. subst run. rewrite Eff.bind_unfold in H.
  destruct (ImageTar_prepare image prefix trust pull w) as [[[]|?|?] wp] eqn:Hp;
    try discriminate.
  rewrite (ImageTar_after_prepare _ _ _ _ _ _ Hp), Eff.bind_unfold, H.
  rewrite Eff.bind_unfold.
  unfold ImageTar_export, Eff.bind, Eff.wrap, dockerExport, dockerRm, engine_call.
  destruct (dockerExport_r (dlog wc) c) as [contents|e]; simpl;
    [|by rewrite !append_assoc].
  destruct (dockerRm_r _ c) as [e|]; simpl; rewrite <- !app_assoc; simpl;
    [by rewrite !append_assoc|].
  split; [done|].
  by destruct (emits_ImageTar_loop prefix (entries (tar_NewReader contents))
                 (stream_err (tar_NewReader contents))
                 (mkWorld (dlog wc ++ [DExport c; DRm c]) (wlog wc))) as [-> _].
Qed.

Lemma emits_io_Copy_buffer_any contents :
  emits (io_Copy_buffer contents)
    (if decide (contents = "") then [] else [Write contents]).
Proof.
  unfold io_Copy_buffer. destruct (decide (contents = ""));
    [apply emits_ret | apply emits_tw_call].
Qed.

Lemma write_config_eq (hd : Header) config w1 :
  (tw_WriteHeader hd ;;; io_Copy_buffer config) w1 =
  match tw_r (wlog w1) (WriteHeader hd) with
  | Some err => (Err err, mkWorld (dlog w1) (wlog w1 ++ [WriteHeader hd]))
  | None =>
      if decide (config = "")
      then (Ok tt, mkWorld (dlog w1) (wlog w1 ++ [WriteHeader hd]))
      else
        match tw_r (wlog w1 ++ [WriteHeader hd]) (Write config) with
        | Some err =>
            (Err err,
             mkWorld (dlog w1) (wlog w1 ++ [WriteHeader hd; Write config]))
        | None =>
            (Ok tt, mkWorld (dlog w1) (wlog w1 ++ [WriteHeader hd; Write config]))
        end
  end.
Proof.
  rewrite Eff.bind_unfold. unfold tw_WriteHeader, tw_call at 1.
  destruct (tw_r (wlog w1) (WriteHeader hd)); [done|].
  unfold io_Copy_buffer. destruct (decide (config = "")); [done|].
  unfold tw_Write, tw_call. cbn [wlog dlog].
  destruct (tw_r (wlog w1 ++ _) (Write config)); by rewrite <- app_assoc.
Qed.

(** X5.  [ImageBundle] writes [config.json] after the root file system and
    only when [ImageTar] has succeeded.  It then calls the writer with the
    header named [path/config.json], of mode 0644 and of the size of the
    configuration, and, unless that call fails or the configuration is
    empty, with one write of the configuration; an error of either call is
    returned, and no call on the engine is made.  When [ImageTar] fails,
    [ImageBundle] returns its error and writes nothing more. *)
Theorem ImageBundle_config_after_rootfs path image config trust pull w :
  let run := ImageBundle path image config trust pull w in
  let h :=
    WriteHeader {| Name := path +:+ "/" +:+ "config.json"; Mode := 420;
                   Size := len config; Typeflag := Ascii.zero; Linkname := "" |} in
  match ImageTar image (path +:+ "/rootfs/") trust pull w with
  | (Ok _, w1) =>
      match tw_r (wlog w1) h with
      | Some err => run = (Err err, mkWorld (dlog w1) (wlog w1 ++ [h]))
      | None =>
          if decide (config = "")
          then run = (Ok tt, mkWorld (dlog w1) (wlog w1 ++ [h]))
          else
            match tw_r (wlog w1 ++ [h]) (Write config) with
            | Some err =>
                run = (Err err, mkWorld (dlog w1) (wlog w1 ++ [h; Write config]))
            | None =>
                run = (Ok tt, mkWorld (dlog w1) (wlog w1 ++ [h; Write config]))
            end
      end
  | (Err e, w1) => run = (Err e, w1)
  | (Panic p, w1) => run = (Panic p, w1)
  end.
Proof.
  intros run h. subst run. unfold ImageBundle. rewrite Eff.bind_unfold.
  destruct (ImageTar image (path +:+ "/rootfs/") trust pull w) as [[[]|e|p] w1];
    [|done..].
  rewrite write_config_eq. fold h.
  destruct (tw_r (wlog w1) h); [done|].
  destruct (decide (config = "")); [done|].
  by destruct (tw_r (wlog w1 ++ [h]) (Write config)).
Qed.

(** X6.  [ImageBundle] needs a relative path that is not empty: with the
    empty path, or with a path that starts with a slash, the prefix of the
    root file system starts with a slash, and the run ends with the error
    "path should be relative" before any call on the engine or the
    writer. *)
Theorem ImageBundle_needs_relative_path image config trust pull w :
  ImageBundle "" image config trust pull w
  = (Err "path should be relative: /rootfs", w) /\
  forall p,
    ImageBundle ("/" +:+ p) image config trust pull w
    = (Err ("path should be relative: /" +:+ p +:+ "/rootfs"), w).
Proof.
  pose proof (ImageTar_rejects_bad_prefix_aux image trust pull w) as H.
  split.
  - unfold ImageBundle. rewrite Eff.bind_unfold.
    change ("" +:+ "/rootfs/") with ("/" +:+ String "r" "ootfs" +:+ "/").
    by rewrite H.
  - intros p. unfold ImageBundle. rewrite Eff.bind_unfold.
    assert (E : exists c q, p +:+ "/rootfs" = String c q).
    { destruct p as [|a p]; [by exists "/"%char, "rootfs" |].
      by exists a, (p +:+ "/rootfs"). }
    destruct E as (c & q & E).
    replace (("/" +:+ p) +:+ "/rootfs/") with ("/" +:+ String c q +:+ "/").
    + by rewrite H, E.
    + rewrite <- E. change "/rootfs/" with ("/rootfs" +:+ "/").
      by rewrite !append_assoc.
Qed.

End Model.

(** *** A run on a small archive *)

Example ImageTar_small_archive :
  ImageTar pull_ok create_ok export_ok rm_ok tw_ok small_archive
    "img" "c/rootfs/" false false w0
  = (Ok tt,
     {| dlog := [DCreate "img"; DExport "c0"; DRm "c0"];
        wlog :=
          [WriteHeader (mkHeader "c" 493 0 TypeDir "");
           WriteHeader (mkHeader "c/rootfs" 493 0 TypeDir "");
           WriteHeader (mkHeader "c/rootfs/etc/hosts" 420
                          (len (replace_at "etc/hosts")) "0"%char "");
           Write (replace_at "etc/hosts");
           WriteHeader (mkHeader "c/rootfs/bin/sh" 420 2 "0"%char "");
           Write "#!"] |}).
Proof. vm_compute. reflexivity. Qed.

Example replace_at_hosts_length : len (replace_at "etc/hosts") = 160.
Proof. vm_compute. reflexivity. Qed.

Lemma ImageTar_replaced_content_witness :
  let run := ImageTar pull_ok create_ok export_ok rm_ok tw_ok small_archive
               "img" "c/rootfs/" false false w0 in
  let dirs := [WriteHeader (mkHeader "c" 493 0 TypeDir "");
               WriteHeader (mkHeader "c/rootfs" 493 0 TypeDir "")] in
  let full :=
    [WriteHeader (mkHeader "c/rootfs/etc/hosts" 420 160 "0"%char "");
     Write (replace_at "etc/hosts");
     WriteHeader (mkHeader "c/rootfs/bin/sh" 420 2 "0"%char "");
     Write "#!"] in
  (exists ops,
     wlog run.2 = dirs ++ ops /\ ops `prefix_of` full /\
     (is_Ok run.1 -> ops = full)) /\
  run = (Ok tt, {| dlog := [DCreate "img"; DExport "c0"; DRm "c0"];
                   wlog := dirs ++ full |}).
Proof.
  pose proof (ImageTar_replaced_content pull_ok create_ok export_ok rm_ok tw_ok
                small_archive "img" "c/rootfs/" false false w0 "archive"
                {| dlog := [DCreate "img"; DExport "c0"; DRm "c0"];
                   wlog := [WriteHeader (mkHeader "c" 493 0 TypeDir "");
                            WriteHeader (mkHeader "c/rootfs" 493 0 TypeDir "")] |}
                [e_hostname] e_hosts [e_sh] eq_refl eq_refl
                (fun H : replace_at "etc/hosts" = "" =>
                   eq_ind (replace_at "etc/hosts")
                     (fun s => match s with EmptyString => False | _ => True end)
                     I "" H)) as (H1 & H2 & _).
  split; [exact H1|].
  exact (proj2 (H2 {| dlog := [DCreate "img"; DExport "c0"; DRm "c0"];
                      wlog := [WriteHeader (mkHeader "c" 493 0 TypeDir "");
                               WriteHeader (mkHeader "c/rootfs" 493 0 TypeDir "")] |}
                   eq_refl)).
Defined.

Lemma ImageTar_pull_retry_once_witness :
  exists rest,
    dlog (ImageTar pull_ok create_after_pull export_ok rm_ok tw_ok small_archive
            "img" "c/rootfs/" false false w0).2
    = [DCreate "img"; DPull "img" true false] ++ DCreate "img" :: rest /\
    no_create_or_pull rest.
Proof.
  exact (ImageTar_pull_retry_once pull_ok create_after_pull export_ok rm_ok tw_ok
           small_archive "img" "c/rootfs/" false false w0
           {| dlog := [];
              wlog := [WriteHeader (mkHeader "c" 493 0 TypeDir "");
                       WriteHeader (mkHeader "c/rootfs" 493 0 TypeDir "")] |}
           eq_refl).
Defined.

Lemma tarPrefix_directories_witness :
  let run := tarPrefix tw_ok ("c/rootfs" +:+ "/") w0 in
  dlog run.2 = [] /\
  exists hs,
    wlog run.2 = [] ++ map WriteHeader hs /\
    Forall (fun h => Mode h = 493 /\ Size h = 0 /\ Typeflag h = TypeDir /\
                     Linkname h = "" /\
                     exists rest, "c/rootfs" +:+ "/" = Name h +:+ "/" +:+ rest) hs /\
    (is_Ok run.1 -> length hs = 2%nat /\ last (map Name hs) = Some "c/rootfs").
Proof.
  apply (tarPrefix_directories tw_ok "c/rootfs" "c"%char w0 eq_refl).
  discriminate.
Defined.

Lemma ImageTar_copies_other_entries_witness :
  let run := ImageTar pull_ok create_ok export_ok rm_ok tw_ok small_archive
               "img" "c/rootfs/" false false w0 in
  let full :=
    [WriteHeader (mkHeader "c/rootfs/etc/hosts" 420 160 "0"%char "");
     Write (replace_at "etc/hosts");
     WriteHeader (mkHeader "c/rootfs/bin/sh" 420 2 "0"%char "");
     Write "#!"] in
  exists ops,
    wlog run.2 =
      [WriteHeader (mkHeader "c" 493 0 TypeDir "");
       WriteHeader (mkHeader "c/rootfs" 493 0 TypeDir "")] ++ ops /\
    ops `prefix_of` full /\ (is_Ok run.1 -> ops = full).
Proof.
  exact (ImageTar_copies_other_entries pull_ok create_ok export_ok rm_ok tw_ok
           small_archive "img" "c/rootfs/" false false w0 "archive"
           {| dlog := [DCreate "img"; DExport "c0"; DRm "c0"];
              wlog := [WriteHeader (mkHeader "c" 493 0 TypeDir "");
                       WriteHeader (mkHeader "c/rootfs" 493 0 TypeDir "")] |}
           [e_hostname; e_hosts] e_sh [] eq_refl eq_refl eq_refl eq_refl).
Defined.

Lemma ImageTar_container_removal_witness :
  let run := ImageTar pull_ok create_ok export_ok rm_ok tw_ok small_archive
               "img" "c/rootfs/" false false w0 in
  let wc := [WriteHeader (mkHeader "c" 493 0 TypeDir "");
             WriteHeader (mkHeader "c/rootfs" 493 0 TypeDir "")] in
  run = ImageTar_loop tw_ok "c/rootfs/" [e_hostname; e_hosts; e_sh] None
          (mkWorld [DCreate "img"; DExport "c0"; DRm "c0"] wc) /\
  dlog run.2 = [DCreate "img"; DExport "c0"; DRm "c0"].
Proof.
  exact (ImageTar_container_removal pull_ok create_ok export_ok rm_ok tw_ok
           small_archive "img" "c/rootfs/" false false w0 "c0"
           {| dlog := [DCreate "img"];
              wlog := [WriteHeader (mkHeader "c" 493 0 TypeDir "");
                       WriteHeader (mkHeader "c/rootfs" 493 0 TypeDir "")] |}
           eq_refl).
Defined.

Example ImageBundle_small_archive :
  ImageBundle pull_ok create_ok export_ok rm_ok tw_ok small_archive
    "c" "img" "{}" false false w0
  = (Ok tt,
     {| dlog := [DCreate "img"; DExport "c0"; DRm "c0"];
        wlog :=
          [WriteHeader (mkHeader "c" 493 0 TypeDir "");
           WriteHeader (mkHeader "c/rootfs" 493 0 TypeDir "");
           WriteHeader (mkHeader "c/rootfs/etc/hosts" 420 160 "0"%char "");
           Write (replace_at "etc/hosts");
           WriteHeader (mkHeader "c/rootfs/bin/sh" 420 2 "0"%char "");
           Write "#!";
           WriteHeader (mkHeader "c/config.json" 420 2 Ascii.zero "");
           Write "{}"] |}).
Proof. vm_compute. reflexivity. Qed.

Lemma ImageBundle_config_after_rootfs_witness :
  ImageBundle pull_ok create_ok export_ok rm_ok tw_ok small_archive
    "c" "img" "{}" false false w0
  = (Ok tt,
     {| dlog := [DCreate "img"; DExport "c0"; DRm "c0"];
        wlog :=
          [WriteHeader (mkHeader "c" 493 0 TypeDir "");
           WriteHeader (mkHeader "c/rootfs" 493 0 TypeDir "");
           WriteHeader (mkHeader "c/rootfs/etc/hosts" 420 160 "0"%char "");
           Write (replace_at "etc/hosts");
           WriteHeader (mkHeader "c/rootfs/bin/sh" 420 2 "0"%char "");
           Write "#!"] ++
          [WriteHeader (mkHeader "c/config.json" 420 2 Ascii.zero "");
           Write "{}"] |}).
Proof.
  exact (ImageBundle_config_after_rootfs pull_ok create_ok export_ok rm_ok tw_ok
           small_archive "c" "img" "{}" false false w0).
Defined.

End Tarball.

(** * Package moby: output formats and the bootstrap image
      (src/src/moby/output.go) *)

Module Output.

(** The closures of [outFuns], by the key each is stored under. *)
Inductive outFun : Type :=
  | KernelInitrd | TarKernelInitrd | IsoBios | IsoEfi | Raw | Gcp | Qcow2
  | Vhd | DynamicVhd | Vmdk | Rpi3.

(** What the program does to the outside, in order. *)
Inductive event : Type :=
  | EMkdirAll (path : string)
  | ENewConfig
  | EBuild
  | ETarToInitrd
  | EWriteFile (path : string)
  | EConvert (f : outFun) (base : string).

(** The world: the regular files that exist, with their contents, and the
    events so far.  [os.Stat] returns a nil error on the paths of [fs]. *)
Record World : Type := mkWorld {
  fs : gmap string string;
  events : list event
}.

Definition outFuns : gmap string outFun :=
  <["kernel+initrd" := KernelInitrd]> (<["tar-kernel-initrd" := TarKernelInitrd]>
  (<["iso-bios" := IsoBios]> (<["iso-efi" := IsoEfi]> (<["raw" := Raw]>
  (<["gcp" := Gcp]> (<["qcow2" := Qcow2]> (<["vhd" := Vhd]>
  (<["dynamic-vhd" := DynamicVhd]> (<["vmdk" := Vmdk]> (<["rpi3" := Rpi3]> ∅)))))))))).

Definition prereq : gmap string string :=
  <["raw" := "mkimage"]> (<["qcow2" := "mkimage"]> ∅).

(** The double quote. *)
Definition dq : string := String (ascii_of_nat 34) "".

Definition linuxkitYaml : gmap string string :=
  <["mkimage" := "
kernel:
  image: " +:+ dq +:+ "linuxkit/kernel:4.9.x" +:+ dq +:+ "
  cmdline: " +:+ dq +:+ "console=ttyS0" +:+ dq +:+ "
init:
  - linuxkit/init:14a38303ee9dcb4541c00e2b87404befc1ba2083
  - linuxkit/runc:a0f2894e50bacbd1ff82be41edff8b8e06e0b161
  - linuxkit/containerd:389e67c3c1fc009c1315f32b3e2b6659691a3ad4
onboot:
  - name: mkimage
    image: " +:+ dq +:+ "linuxkit/mkimage:5ad60299be03008f29c5caec3c5ea4ac0387aae6" +:+ dq +:+ "
  - name: poweroff
    image: " +:+ dq +:+ "linuxkit/poweroff:a8f1e4ad8d459f1fdaad9e4b007512cb3b504ae8" +:+ dq +:+ "
trust:
  org:
    - linuxkit
"]> ∅.

Local Abbreviation M := (@Eff.M World).

(** *** A cache directory and an outside to run the model on *)

Definition join_slash (parts : list string) : string := String.concat "/" parts.

(** A stand-in for the hash: one [f] for each of the first four bytes of
    the text. *)
Definition unary_hex (text : string) : string :=
  String.concat "" (List.repeat "f" (Nat.min 4 (String.length text))).

Definition parse_any (yaml : string) : result unit := Success tt.
Definition build_any (m : unit) (files : gmap string string)
  : string * gmap string string := ("image", files).
Definition split_any (image : string) : result (string * string * string) :=
  Success ("vmlinuz", "cpio", "console=ttyS0").
Definition mkdir_ok (files : gmap string string) (path : string)
  : option string := None.
Definition write_ok (files : gmap string string) (path data : string)
  : option (string * gmap string string) := None.
Definition convert_ok (f : outFun) (base image : string) (size : Z)
    (files : gmap string string) : option string * gmap string string :=
  (None, <[base := image]> files).

(** Converters of which the one for [iso-bios] fails. *)
Definition convert_fails_iso (f : outFun) (base image : string) (size : Z)
    (files : gmap string string) : option string * gmap string string :=
  match f with
  | IsoBios => (Some "Error writing iso-bios output", files)
  | _ => (None, <[base := image]> files)
  end.

Definition empty_world : World := {| fs := ∅; events := [] |}.

Definition stem : string := "/home/u/.moby/linuxkit/mkimage-ffff".

Definition built_files : gmap string string :=
  <[stem +:+ "-cmdline" := "console=ttyS0"]>
    (<[stem +:+ "-initrd.img" := "cpio"]> (<[stem +:+ "-kernel" := "vmlinuz"]> ∅)).

Definition build_events : list event :=
  [EMkdirAll "/home/u/.moby/linuxkit"; ENewConfig; EBuild; ETarToInitrd;
   EWriteFile (stem +:+ "-kernel"); EWriteFile (stem +:+ "-initrd.img");
   EWriteFile (stem +:+ "-cmdline")].

(** The calls of converters that the names [formats] stand for, in order. *)
Definition convert_events (base : string) (formats : list string) : list event :=
  omap (fun o => (fun f => EConvert f base) <$> outFuns !! o) formats.

(** The number of builds among the events [evs]. *)
Definition count_builds (evs : list event) : nat :=
  length (List.filter (fun e => match e with EBuild => true | _ => false end) evs).

(** The call returned: it did not panic. *)
Definition returns {A} (r : outcome A) : Prop :=
  match r with Panic _ => False | _ => True end.

Section Model.
(** The cache directory, and the libraries and the parts of the package the
    model does not open: what they return, and what they do to the files. *)
Variable MobyDir : string.
Variable filepath_Join : list string -> string.
Variable sha256_hex : string -> string.
Variable Config : Type.
Variable NewConfig_r : string -> result Config.
Variable Build_r : Config -> gmap string string -> string * gmap string string.
Variable CopySplitTar_r : string -> result (string * string * string).
Variable MkdirAll_r : gmap string string -> string -> option string.
Variable WriteFile_r :
  gmap string string -> string -> string -> option (string * gmap string string).
Variable outFun_r :
  outFun -> string -> string -> Z -> gmap string string ->
  option string * gmap string string.

Definition log (e : event) (w : World) : World :=
  {| fs := fs w; events := events w ++ [e] |}.

(** [os.Stat(path)]: is the error nil? *)
Definition Stat (path : string) : M bool :=
  fun w => (Ok (bool_decide (is_Some (fs w !! path))), w).

Definition MkdirAll (path : string) : M unit :=
  fun w =>
    match MkdirAll_r (fs w) path with
    | None => (Ok tt, log (EMkdirAll path) w)
    | Some e => (Err e, log (EMkdirAll path) w)
    end.

Definition NewConfig (yaml : string) : M Config :=
  fun w =>
    match NewConfig_r yaml with
    | Success m => (Ok m, log ENewConfig w)
    | Failure e => (Err e, log ENewConfig w)
    end.

(** [Build(m, buf, false, "")] followed by [buf.Bytes()]; the error [Build]
    returns is dropped by the caller. *)
Definition Build (m : Config) : M string :=
  fun w =>
    let '(image, fs') := Build_r m (fs w) in
    (Ok image, {| fs := fs'; events := events w ++ [EBuild] |}).

Definition tarToInitrd (image : string) : M (string * string * string) :=
  fun w =>
    match CopySplitTar_r image with
    | Success t => (Ok t, log ETarToInitrd w)
    | Failure e => (Err e, log ETarToInitrd w)
    end.

(** [ioutil.WriteFile(path, data, perm)]: on success the file holds [data];
    a failed write leaves the files as the outside says. *)
Definition WriteFile (path data : string) : M unit :=
  fun w =>
    match WriteFile_r (fs w) path data with
    | None => (Ok tt, {| fs := <[path := data]> (fs w);
                         events := events w ++ [EWriteFile path] |})
    | Some (e, fs') => (Err e, {| fs := fs'; events := events w ++ [EWriteFile path] |})
    end.

Definition imageFilename (name : string) : string :=
  let yaml := default "" (linuxkitYaml !! name) in
  let hash := sha256_hex yaml in
  filepath_Join [MobyDir; "linuxkit"; name +:+ "-" +:+ hash].

Definition writeKernelInitrd (filename kernel initrd cmdline : string) : M unit :=
  WriteFile (filename +:+ "-kernel") kernel ;;;
  WriteFile (filename +:+ "-initrd.img") initrd ;;;
  WriteFile (filename +:+ "-cmdline") cmdline.

Definition ensureLinuxkitImage (name : string) : M unit :=
  let filename := imageFilename name in
  ok1 <- Stat (filename +:+ "-kernel") ;;
  ok2 <- Stat (filename +:+ "-initrd.img") ;;
  ok3 <- Stat (filename +:+ "-cmdline") ;;
  if ok1 && ok2 && ok3 then Eff.ret tt
  else
    MkdirAll (filepath_Join [MobyDir; "linuxkit"]) ;;;
    let yaml := default "" (linuxkitYaml !! name) in
    m <- NewConfig yaml ;;
    image <- Build m ;;
    t <- Eff.wrap "Error converting to initrd: " (tarToInitrd image) ;;
    let '(kernel, initrd, cmdline) := t in
    writeKernelInitrd filename kernel initrd cmdline.

Definition ensurePrereq (out : string) : M unit :=
  let p := default "" (prereq !! out) in
  if negb (bool_decide (p = "")) then ensureLinuxkitImage p else Eff.ret tt.

(** [ValidateFormats]. *)
Fixpoint ValidateFormats (formats : list string) : M unit :=
  match formats with
  | [] => Eff.ret tt
  | o :: formats' =>
      match outFuns !! o with
      | None => Eff.throw ("Unknown format type " +:+ o)
      | Some _ =>
          Eff.wrap ("Failed to set up format type " +:+ o +:+ ": ")
            (ensurePrereq o) ;;;
          ValidateFormats formats'
      end
  end.

(** A call of the closure stored under [o]; a call of a nil function
    panics. *)
Definition call_outFun (o base image : string) (size : Z) : M unit :=
  match outFuns !! o with
  | None => Eff.panic "invalid memory address or nil pointer dereference"
  | Some f =>
      fun w =>
        let '(r, fs') := outFun_r f base image size (fs w) in
        let w' := {| fs := fs'; events := events w ++ [EConvert f base] |} in
        match r with
        | None => (Ok tt, w')
        | Some e => (Err e, w')
        end
  end.

(** The second loop of [Formats]. *)
Fixpoint Formats_loop (base image : string) (formats : list string) (size : Z)
  : M unit :=
  match formats with
  | [] => Eff.ret tt
  | o :: formats' =>
      call_outFun o base image size ;;; Formats_loop base image formats' size
  end.

Definition Formats (base image : string) (formats : list string) (size : Z)
  : M unit :=
  ValidateFormats formats ;;; Formats_loop base image formats size.

(** The three files of the bootstrap image [name] all exist. *)
Definition cache_hit (name : string) (files : gmap string string) : Prop :=
  is_Some (files !! (imageFilename name +:+ "-kernel")) /\
  is_Some (files !! (imageFilename name +:+ "-initrd.img")) /\
  is_Some (files !! (imageFilename name +:+ "-cmdline")).

(** Lines 421-447 of [ensureLinuxkitImage]: the build. *)
Definition rebuild (name : string) : M unit :=
  MkdirAll (filepath_Join [MobyDir; "linuxkit"]) ;;;
  m <- NewConfig (default "" (linuxkitYaml !! name)) ;;
  image <- Build m ;;
  t <- Eff.wrap "Error converting to initrd: " (tarToInitrd image) ;;
  let '(kernel, initrd, cmdline) := t in
  writeKernelInitrd (imageFilename name) kernel initrd cmdline.

(** No converter runs in [evs]. *)
Definition no_convert (evs : list event) : Prop :=
  Forall (fun e => match e with EConvert _ _ => False | _ => True end) evs.

(** [m] starts no converter and does not panic. *)
Definition quiet {A} (m : M A) : Prop :=
  forall w,
    (exists evs, events (m w).2 = events w ++ evs /\ no_convert evs) /\
    (forall p, (m w).1 <> Panic p).

(** The steps of a build, unfolded. *)
Ltac unfold_rebuild :=
  unfold rebuild, writeKernelInitrd, Eff.bind, Eff.wrap, MkdirAll, NewConfig,
    Build, tarToInitrd, WriteFile, log.

Lemma cache_hit_bool name files :
  bool_decide (is_Some (files !! (imageFilename name +:+ "-kernel")))
  && bool_decide (is_Some (files !! (imageFilename name +:+ "-initrd.img")))
  && bool_decide (is_Some (files !! (imageFilename name +:+ "-cmdline"))) = true
  <-> cache_hit name files.
Proof.
  unfold cache_hit. rewrite !andb_true_iff, !bool_decide_eq_true. tauto.
Qed.

Lemma ensureLinuxkitImage_eq name w :
  ensureLinuxkitImage name w =
  if bool_decide (is_Some (fs w !! (imageFilename name +:+ "-kernel")))
     && bool_decide (is_Some (fs w !! (imageFilename name +:+ "-initrd.img")))
     && bool_decide (is_Some (fs w !! (imageFilename name +:+ "-cmdline")))
  then (Ok tt, w) else rebuild name w.
Proof.
  unfold ensureLinuxkitImage.
  do 3 (rewrite Eff.bind_unfold; unfold Stat at 1; cbn beta iota zeta).
  by destruct (_ && _ && _).
Qed.

Lemma ensureLinuxkitImage_hit name w :
  cache_hit name (fs w) -> ensureLinuxkitImage name w = (Ok tt, w).
Proof.
  intros H%cache_hit_bool. by rewrite ensureLinuxkitImage_eq, H.
Qed.

Lemma ensureLinuxkitImage_miss name w :
  ~ cache_hit name (fs w) -> ensureLinuxkitImage name w = rebuild name w.
Proof.
  intros H. rewrite ensureLinuxkitImage_eq.
  destruct (_ && _ && _) eqn:E; [|done]. by apply cache_hit_bool in E.
Qed.

Lemma app_cons_neq {A} (l k : list A) x : l <> l ++ x :: k.
Proof.
  intros H. apply (f_equal length) in H. rewrite length_app in H. simpl in H. lia.
Qed.

(** What a build leaves behind, step by step. *)
Lemma rebuild_spec name w r w' :
  rebuild name w = (r, w') ->
  let fn := imageFilename name in
  exists evs,
    events w' = events w ++ EMkdirAll (filepath_Join [MobyDir; "linuxkit"]) :: evs /\
    (r = Ok tt ->
     exists m image files kernel initrd cmdline,
       NewConfig_r (default "" (linuxkitYaml !! name)) = Success m /\
       Build_r m (fs w) = (image, files) /\
       CopySplitTar_r image = Success (kernel, initrd, cmdline) /\
       evs = [ENewConfig; EBuild; ETarToInitrd; EWriteFile (fn +:+ "-kernel");
              EWriteFile (fn +:+ "-initrd.img"); EWriteFile (fn +:+ "-cmdline")] /\
       fs w' = <[fn +:+ "-cmdline" := cmdline]>
                 (<[fn +:+ "-initrd.img" := initrd]>
                    (<[fn +:+ "-kernel" := kernel]> files))).
Proof.
  intros H fn. revert H.
  unfold_rebuild. fold fn.
  intros H. repeat (case_match; simplify_eq; simpl in * );
    (eexists; split; [rewrite <- ?app_assoc; simpl; reflexivity|]);
    try done.
  intros _. eauto 12.
Qed.

(** A build whose every step succeeds, step by step. *)
Lemma rebuild_all_ok name w m image files kernel initrd cmdline :
  let fn := imageFilename name in
  MkdirAll_r (fs w) (filepath_Join [MobyDir; "linuxkit"]) = None ->
  NewConfig_r (default "" (linuxkitYaml !! name)) = Success m ->
  Build_r m (fs w) = (image, files) ->
  CopySplitTar_r image = Success (kernel, initrd, cmdline) ->
  WriteFile_r files (fn +:+ "-kernel") kernel = None ->
  WriteFile_r (<[fn +:+ "-kernel" := kernel]> files) (fn +:+ "-initrd.img") initrd
  = None ->
  WriteFile_r (<[fn +:+ "-initrd.img" := initrd]>
                 (<[fn +:+ "-kernel" := kernel]> files))
    (fn +:+ "-cmdline") cmdline = None ->
  rebuild name w =
  (Ok tt,
   {| fs := <[fn +:+ "-cmdline" := cmdline]>
              (<[fn +:+ "-initrd.img" := initrd]>
                 (<[fn +:+ "-kernel" := kernel]> files));
      events := events w ++
                [EMkdirAll (filepath_Join [MobyDir; "linuxkit"]); ENewConfig;
                 EBuild; ETarToInitrd; EWriteFile (fn +:+ "-kernel");
                 EWriteFile (fn +:+ "-initrd.img");
                 EWriteFile (fn +:+ "-cmdline")] |}).
Proof.
  intros fn H1 H2 H3 H4 H5 H6 H7. unfold_rebuild. fold fn.
  rewrite H1, H2. cbn [fs events]. rewrite H3, H4. cbn [fs events].
  rewrite H5. cbn [fs events]. rewrite H6. cbn [fs events]. rewrite H7.
  by rewrite <- !app_assoc.
Qed.

(** C8.  The three files are named by the stem that [filepath.Join] makes
    of the cache directory, ["linuxkit"] and the name followed by a dash and
    the SHA-256 of the YAML, in hexadecimal.  [ensureLinuxkitImage] returns
    nil at once, the world untouched (no directory made, nothing parsed,
    built or written), exactly when all three exist.  When one is missing
    the build is entered; if every step of it succeeds the run returns nil
    after it has made the directory, parsed the YAML, built the image, split
    it and written the kernel, the initrd and the command line of this build
    to the three files, in this order; and a run that returns nil has done
    all of that. *)
Theorem ensureLinuxkitImage_cache name w :
  let run := ensureLinuxkitImage name w in
  let yaml := default "" (linuxkitYaml !! name) in
  let fn := filepath_Join [MobyDir; "linuxkit"; name +:+ "-" +:+ sha256_hex yaml] in
  let dir := filepath_Join [MobyDir; "linuxkit"] in
  let hit files :=
    is_Some (files !! (fn +:+ "-kernel")) /\
    is_Some (files !! (fn +:+ "-initrd.img")) /\
    is_Some (files !! (fn +:+ "-cmdline")) in
  let writes :=
    [ENewConfig; EBuild; ETarToInitrd; EWriteFile (fn +:+ "-kernel");
     EWriteFile (fn +:+ "-initrd.img"); EWriteFile (fn +:+ "-cmdline")] in
  (hit (fs w) <-> run = (Ok tt, w)) /\
  (~ hit (fs w) ->
   exists evs,
     events run.2 = events w ++ EMkdirAll dir :: evs /\
     (run.1 = Ok tt ->
      exists m image files kernel initrd cmdline,
        NewConfig_r yaml = Success m /\
        Build_r m (fs w) = (image, files) /\
        CopySplitTar_r image = Success (kernel, initrd, cmdline) /\
        evs = writes /\
        fs run.2 = <[fn +:+ "-cmdline" := cmdline]>
                     (<[fn +:+ "-initrd.img" := initrd]>
                        (<[fn +:+ "-kernel" := kernel]> files)) /\
        hit (fs run.2))) /\
  (~ hit (fs w) ->
   forall m image files kernel initrd cmdline,
     MkdirAll_r (fs w) dir = None ->
     NewConfig_r yaml = Success m ->
     Build_r m (fs w) = (image, files) ->
     CopySplitTar_r image = Success (kernel, initrd, cmdline) ->
     WriteFile_r files (fn +:+ "-kernel") kernel = None ->
     WriteFile_r (<[fn +:+ "-kernel" := kernel]> files)
       (fn +:+ "-initrd.img") initrd = None ->
     WriteFile_r (<[fn +:+ "-initrd.img" := initrd]>
                    (<[fn +:+ "-kernel" := kernel]> files))
       (fn +:+ "-cmdline") cmdline = None ->
     run = (Ok tt,
            {| fs := <[fn +:+ "-cmdline" := cmdline]>
                       (<[fn +:+ "-initrd.img" := initrd]>
                          (<[fn +:+ "-kernel" := kernel]> files));
               events := events w ++ EMkdirAll dir :: writes |})).
Proof.
  intros run yaml fn dir hit writes. subst run.
  change fn with (imageFilename name) in *.
  assert (Hhit : forall files, hit files <-> cache_hit name files) by done.
  assert (Hmiss : ~ hit (fs w) ->
     exists evs,
     events (ensureLinuxkitImage name w).2 = events w ++ EMkdirAll dir :: evs /\
     ((ensureLinuxkitImage name w).1 = Ok tt ->
      exists m image files kernel initrd cmdline,
        NewConfig_r yaml = Success m /\
        Build_r m (fs w) = (image, files) /\
        CopySplitTar_r image = Success (kernel, initrd, cmdline) /\
        evs = writes /\
        fs (ensureLinuxkitImage name w).2
        = <[imageFilename name +:+ "-cmdline" := cmdline]>
            (<[imageFilename name +:+ "-initrd.img" := initrd]>
               (<[imageFilename name +:+ "-kernel" := kernel]> files)) /\
        hit (fs (ensureLinuxkitImage name w).2))).
  { intros H. rewrite (ensureLinuxkitImage_miss _ _ H).
    destruct (rebuild name w) as [r w'] eqn:E.
    destruct (rebuild_spec _ _ _ _ E) as (evs & Hev & Hok).
    exists evs. split; [done|]. simpl. intros Hr.
    destruct (Hok Hr) as (m & image & files & k & i & c & H1 & H2 & H3 & H4 & H5).
    exists m, image, files, k, i, c. repeat (split; [done|]).
    unfold hit. rewrite H5, !lookup_insert_is_Some'. tauto. }
  split; [|split; [exact Hmiss|]].
  - split.
    + apply ensureLinuxkitImage_hit.
    + intros Hrun. destruct (decide (cache_hit name (fs w))) as [|Hn]; [done|].
      destruct (Hmiss Hn) as (evs & Hev & _). rewrite Hrun in Hev. simpl in Hev.
      by apply app_cons_neq in Hev.
  - intros H m image files kernel initrd cmdline H1 H2 H3 H4 H5 H6 H7.
    rewrite (ensureLinuxkitImage_miss _ _ H).
    by apply (rebuild_all_ok name w m image files kernel initrd cmdline).
Qed.

(** *** Runs without a converter *)

Lemma quiet_ret {A} (a : A) : quiet (Eff.ret a).
Proof.
  intros w. split; [|done]. exists []. rewrite app_nil_r. split; [done | constructor].
Qed.

Lemma quiet_throw {A} msg : quiet (@Eff.throw _ A msg).
Proof.
  intros w. split; [|done]. exists []. rewrite app_nil_r. split; [done | constructor].
Qed.

Lemma quiet_bind {A B} (m : M A) (k : A -> M B) :
  quiet m -> (forall a, quiet (k a)) -> quiet (Eff.bind m k).
Proof.
  intros Hm Hk w. rewrite Eff.bind_unfold.
  destruct (Hm w) as [(e1 & H1 & N1) P1].
  destruct (m w) as [[a|e|p] w']; simpl in *.
  - destruct (Hk a w') as [(e2 & H2 & N2) P2]. split; [|done].
    exists (e1 ++ e2). rewrite H2, H1, app_assoc. split; [done|].
    by apply Forall_app.
  - split; [|done]. by exists e1.
  - by destruct (P1 p).
Qed.

Lemma quiet_wrap {A} pre (m : M A) : quiet m -> quiet (Eff.wrap pre m).
Proof.
  intros Hm w. unfold Eff.wrap. destruct (Hm w) as [H P].
  by destruct (m w) as [[a|e|p] w'].
Qed.

Lemma quiet_rebuild name : quiet (rebuild name).
Proof.
  intros w. unfold_rebuild.
  repeat (case_match; simplify_eq; simpl in * );
    (split; [|done]); rewrite <- ?app_assoc; simpl;
    (eexists; split; [reflexivity|]); by repeat constructor.
Qed.

Lemma quiet_ensureLinuxkitImage name : quiet (ensureLinuxkitImage name).
Proof.
  intros w. rewrite ensureLinuxkitImage_eq.
  destruct (_ && _ && _); [apply (quiet_ret tt) | apply quiet_rebuild].
Qed.

Lemma quiet_ensurePrereq out : quiet (ensurePrereq out).
Proof.
  unfold ensurePrereq.
  destruct (negb _); [apply quiet_ensureLinuxkitImage | apply quiet_ret].
Qed.

Lemma quiet_ValidateFormats formats : quiet (ValidateFormats formats).
Proof.
  induction formats as [|o formats IH]; simpl; [apply quiet_ret|].
  destruct (outFuns !! o); [|apply quiet_throw].
  apply quiet_bind; [apply quiet_wrap, quiet_ensurePrereq | intros _; exact IH].
Qed.

Lemma ValidateFormats_app pre post w :
  ValidateFormats (pre ++ post) w =
  (ValidateFormats pre ;;; ValidateFormats post) w.
Proof.
  revert w. induction pre as [|o pre IH]; intros w; simpl; [done|].
  destruct (outFuns !! o); [|done].
  rewrite !Eff.bind_unfold. destruct (Eff.wrap _ _ w) as [[[]|e|p] w']; [|done..].
  by rewrite IH.
Qed.

(** C9 (as the code has it).  When a requested name has no entry in
    [outFuns], [Formats] returns an error and calls no converter.  The names
    are checked in order, each known name's prerequisite being ensured before
    the next name is looked at: the run is that of [ValidateFormats] on the
    names before the unknown one, followed by the error "Unknown format
    type". *)
Theorem Formats_unknown_name base image pre o post size w :
  outFuns !! o = None ->
  let run := Formats base image (pre ++ o :: post) size w in
  run = match ValidateFormats pre w with
        | (Ok _, w') => (Err ("Unknown format type " +:+ o), w')
        | (Err e, w') => (Err e, w')
        | (Panic p, w') => (Panic p, w')
        end /\
  (exists msg, run.1 = Err msg) /\
  (exists evs, events run.2 = events w ++ evs /\ no_convert evs).
Proof.
  intros Ho run. subst run. unfold Formats.
  rewrite Eff.bind_unfold, ValidateFormats_app, Eff.bind_unfold.
  destruct (quiet_ValidateFormats pre w) as [(evs & He & Hn) Hp].
  destruct (ValidateFormats pre w) as [[[]|e|p] w']; simpl in *.
  - rewrite Ho. simpl. split; [done|]. split; [by eexists | by exists evs].
  - split; [done|]. split; [by eexists | by exists evs].
  - by destruct (Hp p).
Qed.

(** *** More of [ensureLinuxkitImage], [ValidateFormats] and [Formats] *)

Lemma ValidateFormats_known formats w w1 :
  ValidateFormats formats w = (Ok tt, w1) ->
  Forall (fun o => is_Some (outFuns !! o)) formats.
Proof.
  revert w. induction formats as [|o formats IH]; intros w; simpl; [done|].
  destruct (outFuns !! o) as [f|] eqn:E; [|done].
  rewrite Eff.bind_unfold. destruct (Eff.wrap _ _ w) as [[[]|e|p] w']; [|done..].
  intros H. constructor; [by rewrite E | by eapply IH].
Qed.

Lemma convert_events_cons base o f formats :
  outFuns !! o = Some f ->
  convert_events base (o :: formats) = EConvert f base :: convert_events base formats.
Proof. intros H. unfold convert_events. simpl. by rewrite H. Qed.

Lemma Formats_loop_known base image size formats w :
  Forall (fun o => is_Some (outFuns !! o)) formats ->
  let run := Formats_loop base image formats size w in
  returns run.1 /\
  exists n,
    (n <= length formats)%nat /\
    events run.2 = events w ++ convert_events base (take n formats) /\
    length (convert_events base (take n formats)) = n /\
    (run.1 = Ok tt -> n = length formats).
Proof.
  intros HF. revert w. induction HF as [|o formats [f Hf] _ IH]; intros w; simpl.
  - split; [done|]. exists 0%nat. by rewrite app_nil_r.
  - rewrite Eff.bind_unfold. unfold call_outFun. rewrite Hf.
    destruct (outFun_r f base image size (fs w)) as [[e|] fs'].
    + split; [done|]. exists 1%nat. cbn [take firstn length].
      rewrite (convert_events_cons _ _ _ _ Hf).
      split; [lia|]. split; [done|]. split; done.
    + destruct (IH {| fs := fs'; events := events w ++ [EConvert f base] |})
        as (Hr & n & Hn & Hev & Hlen & Hok).
      split; [done|]. exists (S n). cbn [take firstn length].
      rewrite (convert_events_cons _ _ _ _ Hf), Hev. simpl.
      rewrite <- app_assoc, Hlen.
      split; [lia|]. split; [done|]. split; [done|].
      intros H. by rewrite (Hok H).
Qed.

Lemma Formats_loop_app base image size pre post w :
  Formats_loop base image (pre ++ post) size w
  = (Formats_loop base image pre size ;;; Formats_loop base image post size) w.
Proof.
  revert w. induction pre as [|o pre IH]; intros w; [done|].
  cbn [app Formats_loop]. rewrite Eff.bind_assoc, !Eff.bind_unfold.
  destruct (call_outFun o base image size w) as [[[]|?|?] w']; [|done..].
  by rewrite IH.
Qed.

Lemma Formats_loop_Ok_events base image size formats w w2 :
  Forall (fun o => is_Some (outFuns !! o)) formats ->
  Formats_loop base image formats size w = (Ok tt, w2) ->
  events w2 = events w ++ convert_events base formats.
Proof.
  intros HF H.
  destruct (Formats_loop_known base image size formats w HF)
    as (_ & n & _ & Hev & _ & Hok).
  rewrite H in Hev, Hok. simpl in Hev, Hok.
  by rewrite Hev, (Hok eq_refl), firstn_all.
Qed.

(** X7.  Once the validation has passed, [Formats] calls the converters of
    the requested names in the order of the request, one call for each name,
    and stops at the first that fails: when the converters of the names
    before a name have all succeeded and its own converter fails, [Formats]
    returns the error of that converter, and the converters of the names
    after it are not called.  When every converter succeeds, [Formats]
    returns nil and each has been called once, in order. *)
Theorem Formats_converters_in_order base image formats size w w1 :
  ValidateFormats formats w = (Ok tt, w1) ->
  let run := Formats base image formats size w in
  (exists n,
     (n <= length formats)%nat /\
     events run.2 = events w1 ++ convert_events base (take n formats) /\
     length (convert_events base (take n formats)) = n /\
     (run.1 = Ok tt -> n = length formats)) /\
  (forall pre o post f w2 e files,
     formats = pre ++ o :: post ->
     outFuns !! o = Some f ->
     Formats_loop base image pre size w1 = (Ok tt, w2) ->
     outFun_r f base image size (fs w2) = (Some e, files) ->
     run = (Err e,
            {| fs := files;
               events := events w1 ++ convert_events base pre
                         ++ [EConvert f base] |})) /\
  (forall w2,
     Formats_loop base image formats size w1 = (Ok tt, w2) ->
     run = (Ok tt, w2) /\
     events w2 = events w1 ++ convert_events base formats /\
     length (convert_events base formats) = length formats).
Proof.
  intros Hv run. subst run. unfold Formats. rewrite Eff.bind_unfold, Hv.
  pose proof (ValidateFormats_known _ _ _ Hv) as HF.
  split; [|split].
  - by destruct (Formats_loop_known base image size formats w1 HF) as [_ H].
  - intros pre o post f w2 e files -> Ho Hpre Hf.
    apply Forall_app in HF as [HFpre _].
    rewrite Formats_loop_app, Eff.bind_unfold, Hpre.
    cbn [Formats_loop]. rewrite Eff.bind_unfold. unfold call_outFun.
    rewrite Ho, Hf. rewrite (Formats_loop_Ok_events _ _ _ _ _ _ HFpre Hpre).
    by rewrite <- app_assoc.
  - intros w2 H. split; [done|].
    split; [by apply (Formats_loop_Ok_events _ image size)|].
    destruct (Formats_loop_known base image size formats w1 HF)
      as (_ & n & _ & _ & Hlen & Hok).
    rewrite H in Hok. simpl in Hok. rewrite (Hok eq_refl), firstn_all in Hlen.
    exact Hlen.
Qed.

(** X8.  [Formats] never calls a nil function: whatever the request and
    whatever the outside answers, it returns, with nil or with an error. *)
Theorem Formats_returns base image formats size w :
  returns (Formats base image formats size w).1.
Proof.
  unfold Formats. rewrite Eff.bind_unfold.
  destruct (quiet_ValidateFormats formats w) as [_ Hp].
  destruct (ValidateFormats formats w) as [[[]|e|p] w1] eqn:Hv; simpl in *.
  - by destruct (Formats_loop_known base image size formats w1
                   (ValidateFormats_known _ _ _ Hv)) as [H _].
  - done.
  - by destruct (Hp p).
Qed.

Lemma rebuild_hit name w w1 :
  rebuild name w = (Ok tt, w1) -> cache_hit name (fs w1).
Proof.
  intros H. destruct (rebuild_spec _ _ _ _ H) as (evs & _ & Hok).
  destruct (Hok eq_refl) as (m & image & files & k & i & c & _ & _ & _ & _ & H5).
  unfold cache_hit. rewrite H5, !lookup_insert_is_Some'. tauto.
Qed.

(** X9.  A call of [ensureLinuxkitImage] that returns nil leaves the three
    files in place, so that the next call for the same name returns nil at
    once and changes nothing. *)
Theorem ensureLinuxkitImage_idempotent name w w1 :
  ensureLinuxkitImage name w = (Ok tt, w1) ->
  cache_hit name (fs w1) /\ ensureLinuxkitImage name w1 = (Ok tt, w1).
Proof.
  intros H.
  assert (Hh : cache_hit name (fs w1)).
  { destruct (decide (cache_hit name (fs w))) as [Hw|Hw].
    - rewrite (ensureLinuxkitImage_hit _ _ Hw) in H. by injection H as <-.
    - rewrite (ensureLinuxkitImage_miss _ _ Hw) in H. by eapply rebuild_hit. }
  split; [done | by apply ensureLinuxkitImage_hit].
Qed.

Lemma prereq_cases o :
  default "" (prereq !! o) = "" \/ default "" (prereq !! o) = "mkimage".
Proof.
  unfold prereq.
  destruct (decide (o = "raw")) as [->|N1]; [by right|].
  destruct (decide (o = "qcow2")) as [->|N2]; [by right|].
  left. by rewrite !lookup_insert_ne, lookup_empty.
Qed.

Lemma ensurePrereq_hit o w :
  cache_hit "mkimage" (fs w) -> ensurePrereq o w = (Ok tt, w).
Proof.
  intros H. unfold ensurePrereq. destruct (prereq_cases o) as [-> | ->]; [done|].
  by apply ensureLinuxkitImage_hit.
Qed.

Lemma ValidateFormats_hit formats w :
  cache_hit "mkimage" (fs w) -> (ValidateFormats formats w).2 = w.
Proof.
  intros H. induction formats as [|o formats IH]; simpl; [done|].
  destruct (outFuns !! o); [|done].
  rewrite Eff.bind_unfold. unfold Eff.wrap. by rewrite (ensurePrereq_hit _ _ H).
Qed.

Lemma count_builds_app evs1 evs2 :
  count_builds (evs1 ++ evs2) = (count_builds evs1 + count_builds evs2)%nat.
Proof. unfold count_builds. by rewrite List.filter_app, length_app. Qed.

Lemma rebuild_builds_once name w :
  exists evs,
    events (rebuild name w).2 = events w ++ evs /\ (count_builds evs <= 1)%nat.
Proof.
  unfold_rebuild.
  repeat (case_match; simplify_eq; simpl in * );
    rewrite <- ?app_assoc; simpl;
    (eexists; split; [reflexivity|]); unfold count_builds; simpl; lia.
Qed.

(** X10.  In one validation the bootstrap image is built at most once,
    however many of the requested formats need it, and not at all when its
    three files exist: then [ValidateFormats] changes nothing. *)
Theorem ValidateFormats_builds_at_most_once formats w :
  let run := ValidateFormats formats w in
  (exists evs, events run.2 = events w ++ evs /\ (count_builds evs <= 1)%nat) /\
  (cache_hit "mkimage" (fs w) -> run.2 = w).
Proof.
  intros run. subst run. split; [|apply ValidateFormats_hit].
  assert (H0 : forall w : World,
             exists evs, events w = events w ++ evs /\ (count_builds evs <= 1)%nat).
  { intros w0. exists []. rewrite app_nil_r. split; [done|]. cbn. lia. }
  revert w. induction formats as [|o formats IH]; intros w; simpl; [apply H0|].
  - destruct (outFuns !! o); [|apply H0].
    rewrite Eff.bind_unfold. unfold Eff.wrap, ensurePrereq.
    destruct (prereq_cases o) as [-> | ->]; simpl; [apply IH|].
    destruct (decide (cache_hit "mkimage" (fs w))) as [Hw|Hw].
    + rewrite (ensureLinuxkitImage_hit _ _ Hw). apply IH.
    + rewrite (ensureLinuxkitImage_miss _ _ Hw).
      destruct (rebuild_builds_once "mkimage" w) as (evs & Hev & Hc).
      destruct (rebuild "mkimage" w) as [[[]|e|p] w1] eqn:E; simpl in *;
        [|by exists evs..].
      rewrite (ValidateFormats_hit _ _ (rebuild_hit _ _ _ E)). by exists evs.
Qed.

End Model.

(** *** Runs on an empty cache *)

Example ensureLinuxkitImage_builds_once :
  ensureLinuxkitImage "/home/u/.moby" join_slash unary_hex unit parse_any
    build_any split_any mkdir_ok write_ok "mkimage" empty_world
  = (Ok tt, {| fs := built_files; events := build_events |}) /\
  ensureLinuxkitImage "/home/u/.moby" join_slash unary_hex unit parse_any
    build_any split_any mkdir_ok write_ok "mkimage"
    {| fs := built_files; events := build_events |}
  = (Ok tt, {| fs := built_files; events := build_events |}).
Proof. split; vm_compute; reflexivity. Qed.

(** A partial write: the command line is missing, and the build runs
    again. *)
Example ensureLinuxkitImage_partial :
  ensureLinuxkitImage "/home/u/.moby" join_slash unary_hex unit parse_any
    build_any split_any mkdir_ok write_ok "mkimage"
    {| fs := <[stem +:+ "-initrd.img" := "old"]> (<[stem +:+ "-kernel" := "old"]> ∅);
       events := [] |}
  = (Ok tt, {| fs := built_files; events := build_events |}).
Proof. vm_compute. reflexivity. Qed.

Lemma ensureLinuxkitImage_cache_witness :
  ensureLinuxkitImage "/home/u/.moby" join_slash unary_hex unit parse_any
    build_any split_any mkdir_ok write_ok "mkimage" empty_world
  = (Ok tt,
     {| fs := <["/home/u/.moby/linuxkit/mkimage-ffff-cmdline" := "console=ttyS0"]>
                (<["/home/u/.moby/linuxkit/mkimage-ffff-initrd.img" := "cpio"]>
                   (<["/home/u/.moby/linuxkit/mkimage-ffff-kernel" := "vmlinuz"]> ∅));
        events :=
          [EMkdirAll "/home/u/.moby/linuxkit"; ENewConfig; EBuild; ETarToInitrd;
           EWriteFile "/home/u/.moby/linuxkit/mkimage-ffff-kernel";
           EWriteFile "/home/u/.moby/linuxkit/mkimage-ffff-initrd.img";
           EWriteFile "/home/u/.moby/linuxkit/mkimage-ffff-cmdline"] |}).
Proof.
  pose proof (ensureLinuxkitImage_cache "/home/u/.moby" join_slash unary_hex unit
                parse_any build_any split_any mkdir_ok write_ok "mkimage"
                empty_world) as (_ & _ & H).
  apply (H (fun hit => is_Some_None (proj1 hit)) tt "image" ∅
           "vmlinuz" "cpio" "console=ttyS0"); reflexivity.
Defined.

Lemma Formats_unknown_name_witness :
  outFuns !! "docker" = None /\
  let run := Formats "/home/u/.moby" join_slash unary_hex unit parse_any
               build_any split_any mkdir_ok write_ok convert_ok
               "out" "tar" (["iso-bios"] ++ "docker" :: ["vhd"]) 0 empty_world in
  run = (Err "Unknown format type docker", empty_world) /\
  (exists msg, run.1 = Err msg) /\
  (exists evs, events run.2 = [] ++ evs /\ no_convert evs).
Proof.
  split; [reflexivity|].
  exact (Formats_unknown_name "/home/u/.moby" join_slash unary_hex unit parse_any
           build_any split_any mkdir_ok write_ok convert_ok
           "out" "tar" ["iso-bios"] "docker" ["vhd"] 0 empty_world eq_refl).
Defined.

(** The check is not made over the whole list before any work begins: with
    an empty cache, the request [raw, docker] runs the bootstrap build for
    [raw], and writes its three files, before [docker] is found unknown. *)
Lemma Formats_builds_before_unknown_name :
  Formats "/home/u/.moby" join_slash unary_hex unit parse_any
    build_any split_any mkdir_ok write_ok convert_ok
    "out" "tar" ["raw"; "docker"] 0 empty_world
  = (Err "Unknown format type docker",
     {| fs := built_files; events := build_events |}).
Proof. vm_compute. reflexivity. Qed.

Lemma Formats_converters_in_order_witness :
  Formats "/home/u/.moby" join_slash unary_hex unit parse_any
    build_any split_any mkdir_ok write_ok convert_fails_iso
    "out" "tar" ["kernel+initrd"; "iso-bios"; "vhd"] 0 empty_world
  = (Err "Error writing iso-bios output",
     {| fs := <["out" := "tar"]> ∅;
        events := [] ++ convert_events "out" ["kernel+initrd"]
                  ++ [EConvert IsoBios "out"] |}).
Proof.
  pose proof (Formats_converters_in_order "/home/u/.moby" join_slash unary_hex
                unit parse_any build_any split_any mkdir_ok write_ok
                convert_fails_iso "out" "tar" ["kernel+initrd"; "iso-bios"; "vhd"]
                0 empty_world empty_world eq_refl) as (_ & H & _).
  exact (H ["kernel+initrd"] "iso-bios" ["vhd"] IsoBios
           {| fs := <["out" := "tar"]> ∅; events := [EConvert KernelInitrd "out"] |}
           "Error writing iso-bios output" (<["out" := "tar"]> ∅)
           eq_refl eq_refl eq_refl eq_refl).
Defined.

Example Formats_two_formats :
  Formats "/home/u/.moby" join_slash unary_hex unit parse_any
    build_any split_any mkdir_ok write_ok convert_ok
    "out" "tar" ["iso-bios"; "vhd"] 0 empty_world
  = (Ok tt, {| fs := <["out" := "tar"]> ∅;
               events := [EConvert IsoBios "out"; EConvert Vhd "out"] |}).
Proof. vm_compute. reflexivity. Qed.

Lemma ensureLinuxkitImage_idempotent_witness :
  cache_hit "/home/u/.moby" join_slash unary_hex "mkimage" built_files /\
  ensureLinuxkitImage "/home/u/.moby" join_slash unary_hex unit parse_any
    build_any split_any mkdir_ok write_ok "mkimage"
    {| fs := built_files; events := build_events |}
  = (Ok tt, {| fs := built_files; events := build_events |}).
Proof.
  exact (ensureLinuxkitImage_idempotent "/home/u/.moby" join_slash unary_hex unit
           parse_any build_any split_any mkdir_ok write_ok "mkimage" empty_world
           {| fs := built_files; events := build_events |} eq_refl).
Defined.

End Output.

(** * Package moby: the schema (src/src/moby/output.go, lines 527-650) *)

Module Schema.

#[local] Set Warnings "-register-all".

(** A parsed configuration as the validator sees it.  A number is the
    fraction [num/den]. *)
Inductive JSON : Type :=
  | JNull
  | JBool (b : bool)
  | JNumber (num : Z) (den : positive)
  | JString (s : string)
  | JArray (items : list JSON)
  | JObject (members : list (string * JSON)).

Inductive jtype : Type := TObject | TArray | TString | TBoolean | TInteger.

(** A schema of JSON Schema draft 04, with the keywords the program's
    schema uses: ["type"], ["additionalProperties"] ([true] when the keyword
    is absent), ["required"], ["properties"] and ["items"].  A ["$ref"] to a
    definition is the definition itself. *)
Inductive schema_t : Type :=
  | Sch (type : option jtype) (additionalProperties : bool)
        (required : list string) (properties : list (string * schema_t))
        (items : option schema_t).

Definition type_ok (t : option jtype) (v : JSON) : bool :=
  match t, v with
  | None, _ => true
  | Some TObject, JObject _ => true
  | Some TArray, JArray _ => true
  | Some TString, JString _ => true
  | Some TBoolean, JBool _ => true
  | Some TInteger, JNumber num den => (num mod Z.pos den =? 0)%Z
  | Some _, _ => false
  end.

Definition has_key {A} (ms : list (string * A)) (k : string) : bool :=
  existsb (fun m => String.eqb m.1 k) ms.

(** Validation.  The keywords for objects bind objects only, ["items"]
    binds arrays only. *)
Fixpoint validate (s : schema_t) (v : JSON) {struct s} : bool :=
  match s with
  | Sch type additionalProperties required properties items =>
      type_ok type v &&
      match v with
      | JObject ms =>
          forallb (has_key ms) required &&
          (additionalProperties
           || forallb (fun m => has_key properties m.1) ms) &&
          (fix props (ps : list (string * schema_t)) : bool :=
             match ps with
             | [] => true
             | (k, sub) :: ps' =>
                 forallb (fun m => if String.eqb m.1 k then validate sub m.2
                                   else true) ms
                 && props ps'
             end) properties
      | JArray l =>
          match items with
          | Some sub => forallb (validate sub) l
          | None => true
          end
      | _ => true
      end
  end.

Definition string_t : schema_t := Sch (Some TString) true [] [] None.
Definition boolean_t : schema_t := Sch (Some TBoolean) true [] [] None.
Definition integer_t : schema_t := Sch (Some TInteger) true [] [] None.
Definition array_of (s : schema_t) : schema_t := Sch (Some TArray) true [] [] (Some s).

(** The definitions of the schema, in the order of the source. *)
Definition kernel : schema_t :=
  Sch (Some TObject) false [] [("image", string_t); ("cmdline", string_t)] None.

Definition file : schema_t :=
  Sch (Some TObject) false []
    [("path", string_t); ("directory", boolean_t); ("symlink", string_t);
     ("contents", string_t); ("source", string_t); ("optional", boolean_t);
     ("mode", string_t)] None.

Definition files : schema_t := array_of file.

Definition strings : schema_t := array_of string_t.

Definition trust : schema_t :=
  Sch (Some TObject) false [] [("image", strings); ("org", strings)] None.

Definition mount : schema_t :=
  Sch (Some TObject) false []
    [("destination", string_t); ("type", string_t); ("source", string_t);
     ("options", strings)] None.

Definition mounts : schema_t := array_of mount.

Definition image : schema_t :=
  Sch (Some TObject) false ["name"; "image"]
    [("name", string_t); ("image", string_t); ("capabilities", strings);
     ("mounts", mounts); ("binds", strings); ("tmpfs", strings);
     ("command", strings); ("env", strings); ("cwd", string_t);
     ("net", string_t); ("pid", string_t); ("ipc", string_t); ("uts", string_t);
     ("readonly", boolean_t); ("maskedPaths", strings);
     ("readonlyPaths", strings); ("uid", integer_t); ("gid", integer_t);
     ("additionalGids", array_of integer_t); ("noNewPrivileges", boolean_t);
     ("hostname", string_t); ("oomScoreAdj", integer_t);
     ("disableOOMKiller", boolean_t); ("rootfsPropagation", string_t);
     ("cgroupsPath", string_t); ("sysctl", array_of strings);
     ("rlimits", strings)] None.

Definition images : schema_t := array_of image.

Definition override : schema_t :=
  Sch (Some TObject) true [] [("destination", string_t); ("source", string_t)] None.

Definition overrides : schema_t := array_of override.

Definition schema : schema_t :=
  Sch None false []
    [("kernel", kernel); ("init", strings); ("onboot", images);
     ("services", images); ("trust", trust); ("files", files);
     ("overrides", overrides)] None.

(** The configuration of [TestApplyOverride]. *)
Definition test_config (rule : list (string * JSON)) : JSON :=
  JObject
    [("kernel", JObject [("image", JString "foo/bar:foo")]);
     ("init", JArray [JString "foo/bar:foo"]);
     ("onboot", JArray [JObject [("name", JString "foo");
                                ("image", JString "foo/bar:foo")]]);
     ("overrides", JArray [JObject rule])].

Lemma has_key_cons {A} k' (a : A) ps k :
  has_key ((k', a) :: ps) k = String.eqb k' k || has_key ps k.
Proof. reflexivity. Qed.

Lemma has_key_two {A} k1 (a1 : A) k2 (a2 : A) k :
  k <> k1 -> k <> k2 -> has_key [(k1, a1); (k2, a2)] k = false.
Proof.
  intros H1 H2. rewrite !has_key_cons.
  rewrite (proj2 (String.eqb_neq k1 k)), (proj2 (String.eqb_neq k2 k)) by done.
  reflexivity.
Qed.

(** An object schema that is closed rejects an object with a member it does
    not name. *)
Lemma closed_rejects type required properties items ms k v :
  (k, v) ∈ ms -> has_key properties k = false ->
  validate (Sch type false required properties items) (JObject ms) = false.
Proof.
  intros Hin Hk. simpl.
  assert (H : forallb (fun m : string * JSON => has_key properties m.1) ms = false).
  { apply not_true_is_false. intros H.
    rewrite forallb_forall in H. apply list_elem_of_In in Hin.
    specialize (H _ Hin). simpl in H. congruence. }
  rewrite H. by rewrite andb_false_r, andb_false_l, andb_false_r.
Qed.

(** Every object of the schema but [override] is closed: a key the schema
    does not name is rejected at the top level and in a kernel, a file, a
    trust, a mount and an image. *)
Lemma closed_objects ms k v :
  (k, v) ∈ ms ->
  (has_key [("kernel", kernel); ("init", strings); ("onboot", images);
            ("services", images); ("trust", trust); ("files", files);
            ("overrides", overrides)] k = false ->
   validate schema (JObject ms) = false) /\
  (k <> "image" -> k <> "cmdline" -> validate kernel (JObject ms) = false) /\
  (k <> "image" -> k <> "org" -> validate trust (JObject ms) = false) /\
  (has_key [("path", string_t); ("directory", boolean_t); ("symlink", string_t);
            ("contents", string_t); ("source", string_t); ("optional", boolean_t);
            ("mode", string_t)] k = false ->
   validate file (JObject ms) = false) /\
  (has_key [("destination", string_t); ("type", string_t); ("source", string_t);
            ("options", strings)] k = false ->
   validate mount (JObject ms) = false).
Proof.
  intros Hin. repeat split.
  - by apply (closed_rejects _ _ _ _ _ k v).
  - intros H1 H2. apply (closed_rejects _ _ _ _ _ k v); [done|].
    by apply has_key_two.
  - intros H1 H2. apply (closed_rejects _ _ _ _ _ k v); [done|].
    by apply has_key_two.
  - by apply (closed_rejects _ _ _ _ _ k v).
  - by apply (closed_rejects _ _ _ _ _ k v).
Qed.

(** C2 on the code: the [override] definition has no
    ["additionalProperties": false] and names [destination] and [source].
    The configuration of [TestApplyOverride] passes although [substitute] is
    not a key the schema names, and it still passes with a further key that
    no part of the program knows. *)
Theorem override_admits_unknown_keys :
  has_key [("destination", string_t); ("source", string_t)] "substitute" = false /\
  validate schema
    (test_config [("source", JString "foo/bar");
                  ("substitute", JString "foo/bar:quux")]) = true /\
  validate schema
    (test_config [("source", JString "foo/bar");
                  ("substitute", JString "foo/bar:quux");
                  ("bogus", JNumber 1 1)]) = true.
Proof. repeat split; vm_compute; reflexivity. Qed.

(** The same key is rejected in an image, whose definition is closed. *)
Example image_rejects_unknown_key :
  validate schema
    (JObject [("onboot", JArray [JObject [("name", JString "foo");
                                         ("image", JString "foo/bar:foo");
                                         ("bogus", JNumber 1 1)]])]) = false.
Proof. vm_compute. reflexivity. Qed.

(** *** More of the schema *)

Lemma forallb_false_elem {A} (f : A -> bool) l x :
  x ∈ l -> f x = false -> forallb f l = false.
Proof.
  intros Hin Hx. apply not_true_is_false. intros H.
  rewrite forallb_forall in H. apply list_elem_of_In in Hin.
  specialize (H _ Hin). congruence.
Qed.

(** A member that fails the schema of its property fails the object. *)
Lemma property_rejects type additionalProperties required properties items
    ms k sub v :
  (k, sub) ∈ properties -> (k, v) ∈ ms -> validate sub v = false ->
  validate (Sch type additionalProperties required properties items) (JObject ms)
  = false.
Proof.
  intros Hp Hm Hv. simpl.
  apply andb_false_iff. right. apply andb_false_iff. right.
  induction properties as [|[k' sub'] ps IH]; [by apply elem_of_nil in Hp|].
  apply elem_of_cons in Hp as [[= <- <-]|Hp].
  - apply andb_false_iff. left.
    apply (forallb_false_elem _ _ (k, v)); [done|]. simpl.
    by rewrite String.eqb_refl.
  - apply andb_false_iff. right. by apply IH.
Qed.

Lemma array_rejects s l v :
  v ∈ l -> validate s v = false -> validate (array_of s) (JArray l) = false.
Proof. intros Hin Hv. simpl. by apply (forallb_false_elem _ _ v). Qed.

Lemma required_rejects type additionalProperties required properties items ms k :
  k ∈ required -> has_key ms k = false ->
  validate (Sch type additionalProperties required properties items) (JObject ms)
  = false.
Proof.
  intros Hk Hm. simpl.
  rewrite (forallb_false_elem _ _ k Hk Hm).
  by rewrite andb_false_l, andb_false_r.
Qed.

(** X11.  An entry of [onboot] or of [services] that lacks the key [name]
    or the key [image] makes the whole configuration fail the schema,
    whatever else the configuration holds. *)
Theorem schema_image_requires_name_and_image top key imgs ms :
  key = "onboot" \/ key = "services" ->
  (key, JArray imgs) ∈ top ->
  JObject ms ∈ imgs ->
  has_key ms "name" = false \/ has_key ms "image" = false ->
  validate schema (JObject top) = false.
Proof.
  intros Hkey Htop Himg Hreq.
  assert (Hi : validate image (JObject ms) = false).
  { destruct Hreq as [H|H].
    - apply (required_rejects _ _ _ _ _ _ "name"); [|done].
      apply elem_of_cons. by left.
    - apply (required_rejects _ _ _ _ _ _ "image"); [|done].
      apply elem_of_cons. right. apply elem_of_cons. by left. }
  assert (Ha : validate images (JArray imgs) = false)
    by (by apply (array_rejects _ _ (JObject ms))).
  apply (property_rejects _ _ _ _ _ _ key images (JArray imgs)); [|done..].
  destruct Hkey as [-> | ->]; repeat (apply elem_of_cons; first [by left | right]).
Qed.

Lemma schema_image_requires_name_and_image_witness :
  validate schema
    (JObject [("kernel", JObject [("image", JString "foo/bar:foo")]);
              ("onboot", JArray [JObject [("image", JString "foo/bar:foo")]])])
  = false.
Proof.
  apply (schema_image_requires_name_and_image _ "onboot"
           [JObject [("image", JString "foo/bar:foo")]]
           [("image", JString "foo/bar:foo")]).
  - by left.
  - apply elem_of_cons. right. apply elem_of_cons. by left.
  - apply elem_of_cons. by left.
  - by left.
Defined.

(** X12.  The schema puts no type on the document itself: a document that
    is not an object (null, a scalar or a list) passes validation. *)
Theorem schema_accepts_non_objects v :
  match v with
  | JObject _ => True
  | _ => validate schema v = true
  end.
Proof. by destruct v. Qed.

End Schema.

(** * Package moby: config.go *)

(** The file is not among the sources; its test is.  The definitions of this
    module follow the specification (sections 3, 4.2, 4.4 and 6), with the
    field types of the struct literals of the test. *)

Module Config.

Record Mount : Type := mkMount {
  mount_destination : string;
  mount_type : string;
  mount_source : string;
  mount_options : list string
}.

(** Modelled from the spec: the struct [Image] of config.go, which is not
    among the sources.  [Name] and [Image_] (the field [Image]) are
    required; every other field is optional, [None] when the document has no
    such key and [Some] of its value, empty or not, when it has. *)
Record Image : Type := mkImage {
  Name : string;
  Image_ : string;
  Capabilities : option (list string);
  Mounts : option (list Mount);
  Binds : option (list string);
  Tmpfs : option (list string);
  Command : option (list string);
  Env : option (list string);
  Cwd : option string;
  Net : option string;
  Pid : option string;
  Ipc : option string;
  Uts : option string;
  Readonly : option bool;
  MaskedPaths : option (list string);
  ReadonlyPaths : option (list string);
  UID : option Z;
  GID : option Z;
  AdditionalGids : option (list Z);
  NoNewPrivileges : option bool;
  Hostname : option string;
  OomScoreAdj : option Z;
  DisableOOMKiller : option bool;
  RootfsPropagation : option string;
  CgroupsPath : option string;
  Sysctl : option (list (list string));
  Rlimits : option (list string)
}.

(** The mergeable fields, by their keys in a configuration. *)
Inductive field : Type :=
  | capabilities | mounts | binds | tmpfs | command | env | cwd | net | pid
  | ipc | uts | readonly | maskedPaths | readonlyPaths | uid | gid
  | additionalGids | noNewPrivileges | hostname | oomScoreAdj
  | disableOOMKiller | rootfsPropagation | cgroupsPath | sysctl | rlimits.

Definition value (f : field) : Type :=
  match f with
  | capabilities | binds | tmpfs | command | env | maskedPaths
  | readonlyPaths | rlimits => list string
  | mounts => list Mount
  | cwd | net | pid | ipc | uts | hostname | rootfsPropagation
  | cgroupsPath => string
  | readonly | noNewPrivileges | disableOOMKiller => bool
  | uid | gid | oomScoreAdj => Z
  | additionalGids => list Z
  | sysctl => list (list string)
  end.

(** What an image declares for a field. *)
Definition declared (f : field) (i : Image) : option (value f) :=
  match f with
  | capabilities => Capabilities i
  | mounts => Mounts i
  | binds => Binds i
  | tmpfs => Tmpfs i
  | command => Command i
  | env => Env i
  | cwd => Cwd i
  | net => Net i
  | pid => Pid i
  | ipc => Ipc i
  | uts => Uts i
  | readonly => Readonly i
  | maskedPaths => MaskedPaths i
  | readonlyPaths => ReadonlyPaths i
  | uid => UID i
  | gid => GID i
  | additionalGids => AdditionalGids i
  | noNewPrivileges => NoNewPrivileges i
  | hostname => Hostname i
  | oomScoreAdj => OomScoreAdj i
  | disableOOMKiller => DisableOOMKiller i
  | rootfsPropagation => RootfsPropagation i
  | cgroupsPath => CgroupsPath i
  | sysctl => Sysctl i
  | rlimits => Rlimits i
  end.

(** Modelled from the spec: the runtime specification that synthesis
    returns (the type is that of the OCI runtime-spec library, which is not
    among the sources).  The test reads [Process.Cwd] and
    [Process.Capabilities.Bounding]; the other settings stand where the OCI
    shape has them, binds and tmpfs next to the mounts. *)
Module OCI.

Record LinuxCapabilities : Type := mkLinuxCapabilities {
  Bounding : list string;
  Effective : list string;
  Inheritable : list string;
  Permitted : list string;
  Ambient : list string
}.

Record Process : Type := mkProcess {
  Args : list string;
  Env : list string;
  Cwd : string;
  Capabilities : LinuxCapabilities;
  UID : Z;
  GID : Z;
  AdditionalGids : list Z;
  NoNewPrivileges : bool;
  OOMScoreAdj : Z;
  Rlimits : list string
}.

Record Namespaces : Type := mkNamespaces {
  Net : string;
  Pid : string;
  Ipc : string;
  Uts : string
}.

Record Linux : Type := mkLinux {
  MaskedPaths : list string;
  ReadonlyPaths : list string;
  RootfsPropagation : string;
  CgroupsPath : string;
  Sysctl : list (list string);
  DisableOOMKiller : bool;
  Namespaces_ : Namespaces
}.

Record Spec : Type := mkSpec {
  Process_ : Process;
  RootReadonly : bool;
  Hostname : string;
  Mounts : list Mount;
  Binds : list string;
  Tmpfs : list string;
  Linux_ : Linux
}.

End OCI.

(** Where the value of a field stands in a runtime specification. *)
Definition synthesized (f : field) (o : OCI.Spec) : value f :=
  match f with
  | capabilities => OCI.Bounding (OCI.Capabilities (OCI.Process_ o))
  | mounts => OCI.Mounts o
  | binds => OCI.Binds o
  | tmpfs => OCI.Tmpfs o
  | command => OCI.Args (OCI.Process_ o)
  | env => OCI.Env (OCI.Process_ o)
  | cwd => OCI.Cwd (OCI.Process_ o)
  | net => OCI.Net (OCI.Namespaces_ (OCI.Linux_ o))
  | pid => OCI.Pid (OCI.Namespaces_ (OCI.Linux_ o))
  | ipc => OCI.Ipc (OCI.Namespaces_ (OCI.Linux_ o))
  | uts => OCI.Uts (OCI.Namespaces_ (OCI.Linux_ o))
  | readonly => OCI.RootReadonly o
  | maskedPaths => OCI.MaskedPaths (OCI.Linux_ o)
  | readonlyPaths => OCI.ReadonlyPaths (OCI.Linux_ o)
  | uid => OCI.UID (OCI.Process_ o)
  | gid => OCI.GID (OCI.Process_ o)
  | additionalGids => OCI.AdditionalGids (OCI.Process_ o)
  | noNewPrivileges => OCI.NoNewPrivileges (OCI.Process_ o)
  | hostname => OCI.Hostname o
  | oomScoreAdj => OCI.OOMScoreAdj (OCI.Process_ o)
  | disableOOMKiller => OCI.DisableOOMKiller (OCI.Linux_ o)
  | rootfsPropagation => OCI.RootfsPropagation (OCI.Linux_ o)
  | cgroupsPath => OCI.CgroupsPath (OCI.Linux_ o)
  | sysctl => OCI.Sysctl (OCI.Linux_ o)
  | rlimits => OCI.Rlimits (OCI.Process_ o)
  end.

(** Modelled from the spec: the fixed standard set of capability names (the
    table is that of the capability library, which is not among the
    sources): the capabilities of Linux, with their [CAP_] prefix. *)
Definition known_capabilities : list string :=
  ["CAP_CHOWN"; "CAP_DAC_OVERRIDE"; "CAP_DAC_READ_SEARCH"; "CAP_FOWNER";
   "CAP_FSETID"; "CAP_KILL"; "CAP_SETGID"; "CAP_SETUID"; "CAP_SETPCAP";
   "CAP_LINUX_IMMUTABLE"; "CAP_NET_BIND_SERVICE"; "CAP_NET_BROADCAST";
   "CAP_NET_ADMIN"; "CAP_NET_RAW"; "CAP_IPC_LOCK"; "CAP_IPC_OWNER";
   "CAP_SYS_MODULE"; "CAP_SYS_RAWIO"; "CAP_SYS_CHROOT"; "CAP_SYS_PTRACE";
   "CAP_SYS_PACCT"; "CAP_SYS_ADMIN"; "CAP_SYS_BOOT"; "CAP_SYS_NICE";
   "CAP_SYS_RESOURCE"; "CAP_SYS_TIME"; "CAP_SYS_TTY_CONFIG"; "CAP_MKNOD";
   "CAP_LEASE"; "CAP_AUDIT_WRITE"; "CAP_AUDIT_CONTROL"; "CAP_SETFCAP";
   "CAP_MAC_OVERRIDE"; "CAP_MAC_ADMIN"; "CAP_SYSLOG"; "CAP_WAKE_ALARM";
   "CAP_BLOCK_SUSPEND"; "CAP_AUDIT_READ"].

Definition valid_capability (c : string) : bool :=
  bool_decide (c ∈ known_capabilities).

(** The first entry of a list that is not a capability name. *)
Definition first_invalid (caps : list string) : option string :=
  List.find (fun c => negb (valid_capability c)) caps.

(** The error of a synthesis: the image it is about and the string that is
    not a capability name. *)
Inductive SynthError : Type :=
  | InvalidCapabilityError (image : string) (capability : string).

(** Modelled from the spec: the precedence of section 4.4.  The value of the
    YAML when the YAML declares the field, else the value of the label when
    the label declares it, else the built-in default. *)
Definition precedence {A} (yaml label : option A) (builtin : A) : A :=
  match yaml with
  | Some v => v
  | None => match label with
            | Some v => v
            | None => builtin
            end
  end.

Section Synthesis.
(** The built-in default of each field; the specification does not give
    their values. *)
Variable builtin : forall f : field, value f.

Definition effective (f : field) (yaml label : Image) : value f :=
  precedence (declared f yaml) (declared f label) (builtin f).

(** Modelled from the spec: [ConfigInspectToOCI] of config.go, which is not
    among the sources, on the fragment the image's label decodes to (4.3):
    every field by the precedence rule, the capabilities checked against the
    known names, an error and no specification on the first that is not
    one. *)
Definition ConfigInspectToOCI (yaml label : Image) : SynthError + OCI.Spec :=
  let get f := effective f yaml label in
  match first_invalid (get capabilities) with
  | Some c => inl (InvalidCapabilityError (Name yaml) c)
  | None =>
      inr {| OCI.Process_ :=
               {| OCI.Args := get command;
                  OCI.Env := get env;
                  OCI.Cwd := get cwd;
                  OCI.Capabilities :=
                    {| OCI.Bounding := get capabilities;
                       OCI.Effective := get capabilities;
                       OCI.Inheritable := get capabilities;
                       OCI.Permitted := get capabilities;
                       OCI.Ambient := get capabilities |};
                  OCI.UID := get uid;
                  OCI.GID := get gid;
                  OCI.AdditionalGids := get additionalGids;
                  OCI.NoNewPrivileges := get noNewPrivileges;
                  OCI.OOMScoreAdj := get oomScoreAdj;
                  OCI.Rlimits := get rlimits |};
             OCI.RootReadonly := get readonly;
             OCI.Hostname := get hostname;
             OCI.Mounts := get mounts;
             OCI.Binds := get binds;
             OCI.Tmpfs := get tmpfs;
             OCI.Linux_ :=
               {| OCI.MaskedPaths := get maskedPaths;
                  OCI.ReadonlyPaths := get readonlyPaths;
                  OCI.RootfsPropagation := get rootfsPropagation;
                  OCI.CgroupsPath := get cgroupsPath;
                  OCI.Sysctl := get sysctl;
                  OCI.DisableOOMKiller := get disableOOMKiller;
                  OCI.Namespaces_ :=
                    {| OCI.Net := get net; OCI.Pid := get pid;
                       OCI.Ipc := get ipc; OCI.Uts := get uts |} |} |}
  end.

End Synthesis.

(** *** Overrides *)

Record KernelConfig : Type := mkKernelConfig {
  KernelImage : string;
  Cmdline : string
}.

Record TrustConfig : Type := mkTrustConfig {
  TrustImage : list string;
  Org : list string
}.

Record FileSpec : Type := mkFileSpec {
  Path : string;
  Directory : bool;
  Symlink : string;
  Contents : string;
  FileSource : string;
  Optional : bool;
  FileMode : string
}.

Record OverrideRule : Type := mkOverrideRule {
  Source : string;
  Substitute : string
}.

(** Modelled from the spec: the struct of a configuration (config.go is not
    among the sources), as section 3 lists it. *)
Record Moby : Type := mkMoby {
  Kernel : KernelConfig;
  Init : list string;
  Onboot : list Image;
  Services : list Image;
  Trust : TrustConfig;
  Files : list FileSpec;
  Overrides : list OverrideRule
}.

(** [s] up to its first byte [c]. *)
Fixpoint cut_at (c : ascii) (s : string) : string :=
  match s with
  | EmptyString => EmptyString
  | String a s' => if Ascii.eqb a c then EmptyString else String a (cut_at c s')
  end.

(** The last path component with its tag cut off. *)
Fixpoint cut_tag (parts : list string) : list string :=
  match parts with
  | [] => []
  | [p] => [cut_at ":" p]
  | p :: ps => p :: cut_tag ps
  end.

(** Modelled from the spec: the repository component of an image reference
    (the parser of references is a library that is not among the sources):
    the reference without its digest, from the first [@] on, and without its
    tag, from the colon of the last path component on. *)
Definition repository (ref : string) : string :=
  String.concat "/" (cut_tag (Split (cut_at "@" ref) "/")).

(** Modelled from the spec: the rewrite of one reference (section 4.2).  The
    rules are tried in the order of their declaration; the first whose
    [Source] is the repository of the reference replaces the whole
    reference by its [Substitute]. *)
Fixpoint substitute (rules : list OverrideRule) (ref : string) : string :=
  match rules with
  | [] => ref
  | r :: rules' =>
      if String.eqb (repository ref) (Source r) then Substitute r
      else substitute rules' ref
  end.

Definition set_Image (ref : string) (i : Image) : Image :=
  {| Name := Name i; Image_ := ref; Capabilities := Capabilities i;
     Mounts := Mounts i; Binds := Binds i; Tmpfs := Tmpfs i;
     Command := Command i; Env := Env i; Cwd := Cwd i; Net := Net i;
     Pid := Pid i; Ipc := Ipc i; Uts := Uts i; Readonly := Readonly i;
     MaskedPaths := MaskedPaths i; ReadonlyPaths := ReadonlyPaths i;
     UID := UID i; GID := GID i; AdditionalGids := AdditionalGids i;
     NoNewPrivileges := NoNewPrivileges i; Hostname := Hostname i;
     OomScoreAdj := OomScoreAdj i; DisableOOMKiller := DisableOOMKiller i;
     RootfsPropagation := RootfsPropagation i; CgroupsPath := CgroupsPath i;
     Sysctl := Sysctl i; Rlimits := Rlimits i |}.

(** Modelled from the spec: [ApplyOverride] of config.go, which is not among
    the sources: the rewrite of the kernel image, of every entry of [init]
    and of the image of every entry of [onboot] and [services]. *)
Definition ApplyOverride (c : Moby) : Moby :=
  let rules := Overrides c in
  let image i := set_Image (substitute rules (Image_ i)) i in
  {| Kernel := {| KernelImage := substitute rules (KernelImage (Kernel c));
                  Cmdline := Cmdline (Kernel c) |};
     Init := map (substitute rules) (Init c);
     Onboot := map image (Onboot c);
     Services := map image (Services c);
     Trust := Trust c;
     Files := Files c;
     Overrides := Overrides c |}.

(** *** The cases of the test *)

Definition no_defaults (f : field) : value f :=
  match f with
  | capabilities | binds | tmpfs | command | env | maskedPaths
  | readonlyPaths | rlimits => []
  | mounts => []
  | cwd | net | pid | ipc | uts | hostname | rootfsPropagation
  | cgroupsPath => ""
  | readonly | noNewPrivileges | disableOOMKiller => false
  | uid | gid | oomScoreAdj => 0
  | additionalGids => []
  | sysctl => []
  end.

(** An image that declares its capabilities and its directory at most. *)
Definition image_with (name ref : string) (caps : option (list string))
    (dir : option string) : Image :=
  {| Name := name; Image_ := ref; Capabilities := caps; Mounts := None;
     Binds := None; Tmpfs := None; Command := None; Env := None; Cwd := dir;
     Net := None; Pid := None; Ipc := None; Uts := None; Readonly := None;
     MaskedPaths := None; ReadonlyPaths := None; UID := None; GID := None;
     AdditionalGids := None; NoNewPrivileges := None; Hostname := None;
     OomScoreAdj := None; DisableOOMKiller := None; RootfsPropagation := None;
     CgroupsPath := None; Sysctl := None; Rlimits := None |}.

(** [TestOverrides]. *)
Definition overrides_yaml : Image :=
  image_with "test" "testimage" (Some ["CAP_SYS_ADMIN"]) None.
Definition overrides_label : Image :=
  image_with "" "" (Some ["CAP_SYS_CHROOT"]) (Some "/label/directory").

(** [TestInvalidCap]. *)
Definition invalid_yaml : Image := image_with "test" "testimage" None None.
Definition invalid_label : Image := image_with "" "" (Some ["NOT_A_CAP"]) None.

Definition overrides_oci : OCI.Spec :=
  match ConfigInspectToOCI no_defaults overrides_yaml overrides_label with
  | inr o => o
  | inl _ =>
      OCI.mkSpec
        (OCI.mkProcess [] [] "" (OCI.mkLinuxCapabilities [] [] [] [] []) 0 0 []
           false 0 [])
        false "" [] [] [] (OCI.mkLinux [] [] "" "" [] false (OCI.mkNamespaces "" "" "" ""))
  end.

(** [TestApplyOverride]. *)
Definition test_config (rules : list OverrideRule) : Moby :=
  {| Kernel := {| KernelImage := "foo/bar:foo"; Cmdline := "" |};
     Init := ["foo/bar:foo"];
     Onboot := [image_with "foo" "foo/bar:foo" None None];
     Services := [];
     Trust := {| TrustImage := []; Org := [] |};
     Files := [];
     Overrides := rules |}.

(** *** The claims *)

Lemma synthesized_effective (builtin : forall f, value f) yaml label oci f :
  ConfigInspectToOCI builtin yaml label = inr oci ->
  synthesized f oci = effective builtin f yaml label.
Proof.
  unfold ConfigInspectToOCI. destruct (first_invalid _); [discriminate|].
  intros [= <-]. by destruct f.
Qed.

(** C1.  In the specification that a synthesis returns, every mergeable
    field holds the value the YAML declares, whatever the label declares for
    it; the value the label declares when the YAML declares none; the
    built-in default when neither declares one. *)
Theorem ConfigInspectToOCI_precedence (builtin : forall f, value f) yaml label oci f :
  ConfigInspectToOCI builtin yaml label = inr oci ->
  (forall v, declared f yaml = Some v -> synthesized f oci = v) /\
  (forall v, declared f yaml = None -> declared f label = Some v ->
             synthesized f oci = v) /\
  (declared f yaml = None -> declared f label = None ->
   synthesized f oci = builtin f).
Proof.
  intros H. rewrite (synthesized_effective _ _ _ _ f H).
  unfold effective, precedence.
  repeat split; intros; repeat case_match; congruence.
Qed.

(** C3.  When the capability list in force, whichever of the YAML, the
    label and the defaults supplies it, holds a string that is not a known
    capability name, synthesis returns no specification but the error that
    names the image and the first such string of the list. *)
Theorem ConfigInspectToOCI_invalid_capability (builtin : forall f, value f) yaml label
    c :
  c ∈ precedence (Capabilities yaml) (Capabilities label) (builtin capabilities) ->
  valid_capability c = false ->
  exists c',
    ConfigInspectToOCI builtin yaml label
    = inl (InvalidCapabilityError (Name yaml) c') /\
    c' ∈ precedence (Capabilities yaml) (Capabilities label) (builtin capabilities) /\
    valid_capability c' = false.
Proof.
  intros Hin Hc. unfold ConfigInspectToOCI, first_invalid, effective. simpl.
  destruct (find _ _) as [c'|] eqn:E.
  - apply find_some in E as [H1 H2]. exists c'.
    split; [done|]. split; [by apply list_elem_of_In | by apply negb_true_iff].
  - apply list_elem_of_In in Hin.
    pose proof (find_none _ _ E _ Hin) as H. simpl in H.
    rewrite Hc in H. discriminate.
Qed.

Lemma ConfigInspectToOCI_precedence_witness :
  ConfigInspectToOCI no_defaults overrides_yaml overrides_label = inr overrides_oci /\
  OCI.Bounding (OCI.Capabilities (OCI.Process_ overrides_oci)) = ["CAP_SYS_ADMIN"] /\
  OCI.Cwd (OCI.Process_ overrides_oci) = "/label/directory" /\
  OCI.Hostname overrides_oci = "".
Proof.
  split; [reflexivity|].
  pose proof (ConfigInspectToOCI_precedence no_defaults overrides_yaml
                overrides_label overrides_oci capabilities eq_refl) as (H1 & _ & _).
  pose proof (ConfigInspectToOCI_precedence no_defaults overrides_yaml
                overrides_label overrides_oci cwd eq_refl) as (_ & H2 & _).
  pose proof (ConfigInspectToOCI_precedence no_defaults overrides_yaml
                overrides_label overrides_oci hostname eq_refl) as (_ & _ & H3).
  split; [exact (H1 _ eq_refl)|].
  split; [exact (H2 _ eq_refl eq_refl) | exact (H3 eq_refl eq_refl)].
Defined.

Lemma ConfigInspectToOCI_invalid_capability_witness :
  exists c',
    ConfigInspectToOCI no_defaults invalid_yaml invalid_label
    = inl (InvalidCapabilityError "test" c') /\
    c' ∈ ["NOT_A_CAP"] /\ valid_capability c' = false.
Proof.
  exact (ConfigInspectToOCI_invalid_capability no_defaults invalid_yaml
           invalid_label "NOT_A_CAP" (list_elem_of_here _ _) eq_refl).
Defined.

Example TestInvalidCap :
  ConfigInspectToOCI no_defaults invalid_yaml invalid_label
  = inl (InvalidCapabilityError "test" "NOT_A_CAP").
Proof. vm_compute. reflexivity. Qed.

Lemma substitute_first_match pre r post ref :
  Forall (fun r' => Source r' <> Source r) pre ->
  repository ref = Source r ->
  substitute (pre ++ r :: post) ref = Substitute r.
Proof.
  intros Hpre Href. induction Hpre as [|r' pre Hr' _ IH]; simpl.
  - by rewrite Href, String.eqb_refl.
  - rewrite Href, (proj2 (String.eqb_neq _ _)) by done. exact IH.
Qed.

(** C4 (as the specification has it in 4.2).  A rule with no rule of the
    same [Source] before it replaces, by its [Substitute] and whatever the
    tag or the digest, the kernel image, every entry of [init] and the image
    of every entry of [onboot] and [services] whose repository is its
    [Source]. *)
Theorem ApplyOverride_first_match c pre r post :
  Overrides c = pre ++ r :: post ->
  Forall (fun r' => Source r' <> Source r) pre ->
  (repository (KernelImage (Kernel c)) = Source r ->
   KernelImage (Kernel (ApplyOverride c)) = Substitute r) /\
  (forall n ref, Init c !! n = Some ref -> repository ref = Source r ->
     Init (ApplyOverride c) !! n = Some (Substitute r)) /\
  (forall n i, Onboot c !! n = Some i -> repository (Image_ i) = Source r ->
     Image_ <$> Onboot (ApplyOverride c) !! n = Some (Substitute r)) /\
  (forall n i, Services c !! n = Some i -> repository (Image_ i) = Source r ->
     Image_ <$> Services (ApplyOverride c) !! n = Some (Substitute r)).
Proof.
  intros Hc Hpre. unfold ApplyOverride. simpl. rewrite Hc.
  split; [intros H; by apply substitute_first_match|].
  split; [intros n ref Hn H; rewrite list_lookup_fmap, Hn; simpl;
          by rewrite substitute_first_match|].
  split; intros n i Hn H; rewrite list_lookup_fmap, Hn; simpl;
    by rewrite substitute_first_match.
Qed.

Example repository_examples :
  repository "foo/bar:foo" = "foo/bar" /\
  repository "foo/bar" = "foo/bar" /\
  repository "localhost:5000/foo/bar:1.0" = "localhost:5000/foo/bar" /\
  repository "linuxkit/mkimage:5ad6@sha256:2c06" = "linuxkit/mkimage".
Proof. repeat split; vm_compute; reflexivity. Qed.

Lemma ApplyOverride_first_match_witness :
  let c := ApplyOverride (test_config [mkOverrideRule "foo/bar" "foo/bar:quux"]) in
  KernelImage (Kernel c) = "foo/bar:quux" /\
  Init c !! 0%nat = Some "foo/bar:quux" /\
  Image_ <$> Onboot c !! 0%nat = Some "foo/bar:quux".
Proof.
  pose proof (ApplyOverride_first_match
                (test_config [mkOverrideRule "foo/bar" "foo/bar:quux"])
                [] (mkOverrideRule "foo/bar" "foo/bar:quux") []
                eq_refl (List.Forall_nil _)) as (H1 & H2 & H3 & _).
  split; [exact (H1 eq_refl)|].
  split; [exact (H2 0%nat "foo/bar:foo" eq_refl eq_refl)|].
  exact (H3 0%nat (image_with "foo" "foo/bar:foo" None None) eq_refl eq_refl).
Defined.

(** Not every rule whose [Source] is the repository of a field replaces it:
    of two rules with the same [Source], the second never does. *)
Lemma ApplyOverride_second_rule_loses :
  let first := mkOverrideRule "foo/bar" "foo/bar:quux" in
  let second := mkOverrideRule "foo/bar" "foo/bar:other" in
  let c := ApplyOverride (test_config [first; second]) in
  repository "foo/bar:foo" = Source second /\
  KernelImage (Kernel c) = "foo/bar:quux" /\
  Init c = ["foo/bar:quux"] /\
  Image_ <$> Onboot c = ["foo/bar:quux"] /\
  String.eqb (KernelImage (Kernel c)) (Substitute second) = false.
Proof. repeat split; vm_compute; reflexivity. Qed.

End Config.

(** * Package main: the engine calls (src/cmd/moby/docker.go) *)

Module Docker.

(** A call on the Docker client library, or the making of a client. *)
Inductive call : Type :=
  | NewEnvClient
  | ContainerCreate (image : string) (cmd : list string)
      (attachStdout attachStdin : bool)
  | ImagePull (image : string)
  | TrustedReference (image : string)
  | ContainerAttach (id : string)
  | ContainerStart (id : string)
  | CopyInput (id input : string)
  | ContainerWait (id : string)
  | ReadAll (id : string)
  | CloseAttach (id : string)
  | ImageInspectWithRaw (image : string).

(** The world: the calls made so far, in order, failed calls included. *)
Local Abbreviation M := (@Eff.M (list call)).

(** A call [c] whose answer may depend on the calls before it. *)
Definition api {A} (c : call) (answer : list call -> result A) : M A :=
  fun w =>
    match answer (w ++ [c]) with
    | Success a => (Ok a, w ++ [c])
    | Failure e => (Err e, w ++ [c])
    end.

Definition of_error (o : option string) : result unit :=
  match o with None => Success tt | Some e => Failure e end.

(** [if err != nil { return errors.New(msg) }]. *)
Definition or_error {A} (msg : string) (m : M A) : M A :=
  fun w =>
    match m w with
    | (Err _, w') => (Err msg, w')
    | rw => rw
    end.

(** [defer c]: the call [c] is made when [m] is over, however it ends. *)
Definition defer {A} (c : call) (m : M A) : M A :=
  fun w => let '(r, w') := m w in (r, w' ++ [c]).

(** An engine with the image missing until it is pulled. *)
Definition no_error (h : list call) : option string := None.
Definition create_after_pull (h : list call) : result string :=
  if existsb (fun c => match c with ImagePull _ => true | _ => false end) h
  then Success "c0"
  else Failure "No such image".
Definition inspect_after_pull (h : list call) : result string :=
  if existsb (fun c => match c with ImagePull _ => true | _ => false end) h
  then Success "sha256:0"
  else Failure "No such image".
Definition trusted_same (h : list call) : result string := Success "img@sha256:0".
Definition read_output (h : list call) : result string := Success "output".
Definition is_no_such_image (err : string) : bool := Contains err "No such image".

Section Model.
(** The type of an inspected image, the answers of the library, and its
    tests on the errors it returns. *)
Variable ImageInspect : Type.
Variable client_r : list call -> option string.
Variable create_r : list call -> result string.
Variable pull_r : list call -> option string.
Variable trusted_r : list call -> result string.
Variable attach_r : list call -> option string.
Variable start_r : list call -> option string.
Variable copy_r : list call -> option string.
Variable wait_r : list call -> option string.
Variable readall_r : list call -> result string.
Variable inspect_r : list call -> result ImageInspect.
Variable IsErrNotFound : string -> bool.
Variable IsErrImageNotFound : string -> bool.

Definition dockerClient : M unit :=
  api NewEnvClient (fun h => of_error (client_r h)).

Definition dockerPull (image : string) (trustedPull : bool) : M unit :=
  image <-
    (if trustedPull then
       Eff.wrap ("Trusted pull for " +:+ image +:+ " failed: ")
         (api (TrustedReference image) trusted_r)
     else Eff.ret image) ;;
  or_error "could not initialize Docker API client" dockerClient ;;;
  api (ImagePull image) (fun h => of_error (pull_r h)).

Definition dockerRunInput (input image : string) (args : list string) : M string :=
  or_error "could not initialize Docker API client" dockerClient ;;;
  r <- Eff.try (api (ContainerCreate image args true true) create_r) ;;
  match r with
  | Failure err =>
      (* if the image wasn't found, try to do a pull and another create *)
      if IsErrNotFound err then
        dockerPull image false ;;;
        r2 <- Eff.try (api (ContainerCreate image args false true) create_r) ;;
        match r2 with
        | Failure err2 => Eff.throw err2
        | Success _ => Eff.ret ""
        end
      else Eff.throw err
  | Success id =>
      api (ContainerAttach id) (fun h => of_error (attach_r h)) ;;;
      defer (CloseAttach id)
        (api (ContainerStart id) (fun h => of_error (start_r h)) ;;;
         api (CopyInput id input) (fun h => of_error (copy_r h)) ;;;
         api (ContainerWait id) (fun h => of_error (wait_r h)) ;;;
         api (ReadAll id) readall_r)
  end.

Definition dockerInspectImage (image : string) : M ImageInspect :=
  r <- Eff.try (api (ImageInspectWithRaw image) inspect_r) ;;
  match r with
  | Success inspect => Eff.ret inspect
  | Failure err =>
      if IsErrImageNotFound err then
        dockerPull image false ;;;
        api (ImageInspectWithRaw image) inspect_r
      else Eff.throw err
  end.

(** No call of [l] attaches to a container, starts one or feeds one. *)
Definition never_runs (l : list call) : Prop :=
  Forall (fun c => match c with
                   | ContainerAttach _ | ContainerStart _ | CopyInput _ _
                   | ContainerWait _ | ReadAll _ => False
                   | _ => True
                   end) l.

Lemma dockerPull_untrusted_eq image w :
  dockerPull image false w =
  match client_r (w ++ [NewEnvClient]) with
  | Some _ => (Err "could not initialize Docker API client", w ++ [NewEnvClient])
  | None =>
      match pull_r (w ++ [NewEnvClient; ImagePull image]) with
      | Some e => (Err e, w ++ [NewEnvClient; ImagePull image])
      | None => (Ok tt, w ++ [NewEnvClient; ImagePull image])
      end
  end.
Proof.
  unfold dockerPull, Eff.bind, Eff.ret, or_error, dockerClient, api.
  destruct (client_r (w ++ [NewEnvClient])); simpl; [done|].
  rewrite <- app_assoc. simpl. by destruct (pull_r _).
Qed.

Lemma dockerRunInput_failed_eq input image args w err :
  client_r (w ++ [NewEnvClient]) = None ->
  create_r (w ++ [NewEnvClient; ContainerCreate image args true true])
  = Failure err ->
  let h := w ++ [NewEnvClient; ContainerCreate image args true true] in
  dockerRunInput input image args w =
  if IsErrNotFound err then
    match dockerPull image false h with
    | (Ok _, h') =>
        match create_r (h' ++ [ContainerCreate image args false true]) with
        | Success _ => (Ok "", h' ++ [ContainerCreate image args false true])
        | Failure err2 => (Err err2, h' ++ [ContainerCreate image args false true])
        end
    | (Err e, h') => (Err e, h')
    | (Panic p, h') => (Panic p, h')
    end
  else (Err err, h).
Proof.
  intros Hc Hcr h. subst h.
  unfold dockerRunInput, Eff.bind, Eff.try, or_error, dockerClient, api.
  rewrite Hc. simpl. rewrite <- app_assoc. simpl. rewrite Hcr.
  destruct (IsErrNotFound err); [|done].
  destruct (dockerPull image false _) as [[[]|?|?] h']; try done.
  destruct (create_r (h' ++ _)); reflexivity.
Qed.

(** X13.  When the first creation of the container fails, [dockerRunInput]
    never attaches to a container, starts one or sends it the input.  If the
    error is not "not found" it is returned.  If it is, the image is pulled
    and the container created again, and an error of either is returned;
    but when both succeed the function returns the empty output and a nil
    error, with nothing run. *)
Theorem dockerRunInput_failed_create input image args w err :
  client_r (w ++ [NewEnvClient]) = None ->
  create_r (w ++ [NewEnvClient; ContainerCreate image args true true])
  = Failure err ->
  let run := dockerRunInput input image args w in
  let h := w ++ [NewEnvClient; ContainerCreate image args true true] in
  (exists l, run.2 = w ++ l /\ never_runs l) /\
  if IsErrNotFound err then
    match dockerPull image false h with
    | (Ok _, h') =>
        match create_r (h' ++ [ContainerCreate image args false true]) with
        | Success _ =>
            run = (Ok "", h' ++ [ContainerCreate image args false true])
        | Failure err2 =>
            run = (Err err2, h' ++ [ContainerCreate image args false true])
        end
    | (Err e, h') => run = (Err e, h')
    | (Panic p, h') => run = (Panic p, h')
    end
  else run = (Err err, h).
Proof.
  intros Hc Hcr run h. subst run.
  rewrite (dockerRunInput_failed_eq _ _ _ _ _ Hc Hcr). fold h.
  split; [|by repeat case_match].
  destruct (IsErrNotFound err).
  - rewrite dockerPull_untrusted_eq.
    repeat case_match; simplify_eq; simpl; unfold h; rewrite <- ?app_assoc;
      simpl; (eexists; split; [reflexivity|]); by repeat constructor.
  - eexists. split; [reflexivity|]. by repeat constructor.
Qed.

(** X14.  [dockerInspectImage] pulls and inspects again at most once: when
    the first inspection fails with "image not found", one pull without
    trust follows, through a client of its own, and then one more
    inspection, whose result is returned; a failed pull is returned without
    a second inspection, and any other error of the first inspection at
    once, with no pull. *)
Theorem dockerInspectImage_retry_once image w :
  let h := w ++ [ImageInspectWithRaw image] in
  dockerInspectImage image w =
  match inspect_r h with
  | Success inspect => (Ok inspect, h)
  | Failure err =>
      if IsErrImageNotFound err then
        match client_r (h ++ [NewEnvClient]) with
        | Some _ =>
            (Err "could not initialize Docker API client", h ++ [NewEnvClient])
        | None =>
            let h1 := h ++ [NewEnvClient; ImagePull image] in
            match pull_r h1 with
            | Some e => (Err e, h1)
            | None =>
                let h2 := h1 ++ [ImageInspectWithRaw image] in
                match inspect_r h2 with
                | Success inspect => (Ok inspect, h2)
                | Failure err2 => (Err err2, h2)
                end
            end
        end
      else (Err err, h)
  end.
Proof.
  intros h. unfold dockerInspectImage.
  rewrite Eff.bind_unfold. unfold Eff.try, api at 1. fold h.
  destruct (inspect_r h) as [inspect|err]; [done|].
  destruct (IsErrImageNotFound err); [|done].
  rewrite Eff.bind_unfold, dockerPull_untrusted_eq.
  destruct (client_r (h ++ [NewEnvClient])); [done|].
  destruct (pull_r (h ++ [NewEnvClient; ImagePull image])); [done|].
  unfold api. cbn zeta. by destruct (inspect_r ((h ++ _) ++ _)).
Qed.

End Model.

Lemma dockerRunInput_failed_create_witness :
  let run := dockerRunInput no_error create_after_pull no_error trusted_same
               no_error no_error no_error no_error read_output
               is_no_such_image "tarball" "img" ["arg"] [] in
  let h' := [NewEnvClient; ContainerCreate "img" ["arg"] true true;
             NewEnvClient; ImagePull "img"] in
  (exists l, run.2 = [] ++ l /\ never_runs l) /\
  run = (Ok "", h' ++ [ContainerCreate "img" ["arg"] false true]).
Proof.
  exact (dockerRunInput_failed_create no_error create_after_pull no_error
           trusted_same no_error no_error no_error no_error read_output
           is_no_such_image "tarball" "img" ["arg"] [] "No such image"
           eq_refl eq_refl).
Defined.

(** With the image at hand the same request runs the container. *)
Example dockerRunInput_runs :
  dockerRunInput no_error (fun _ => Success "c0") no_error trusted_same
    no_error no_error no_error no_error read_output is_no_such_image
    "tarball" "img" ["arg"] []
  = (Ok "output",
     [NewEnvClient; ContainerCreate "img" ["arg"] true true;
      ContainerAttach "c0"; ContainerStart "c0"; CopyInput "c0" "tarball";
      ContainerWait "c0"; ReadAll "c0"; CloseAttach "c0"]).
Proof. vm_compute. reflexivity. Qed.

Example dockerInspectImage_pulls :
  dockerInspectImage string no_error no_error trusted_same inspect_after_pull
    is_no_such_image "img" []
  = (Ok "sha256:0",
     [ImageInspectWithRaw "img"; NewEnvClient; ImagePull "img";
      ImageInspectWithRaw "img"]).
Proof. vm_compute. reflexivity. Qed.

End Docker.
